(** * Heptagon physics: the update step of [HeptagonSimulation]

    A shallow embedding of the physics core of the component (the vector
    helpers and [updatePhysics]) and the properties of it that the design
    document states.

    Numbers.  The TypeScript [number] is modelled by the real numbers:
    [+ - * /] and [Math.sqrt], [Math.sin], [Math.cos], [Math.atan2] are the
    exact operations, so the statements below are about the arithmetic the
    code asks for, without the rounding of IEEE doubles (this is what the
    design document means by "modulo floating-point tolerance" and "minus
    epsilon").  Comparisons [<], [>], [===] on numbers are the decidable
    order and equality of the reals.

    State.  The ball array is a list of records, read and overwritten by
    index, in the order in which the source mutates the objects.

    Not modelled: the random initial balls (a state is any list of balls),
    [draw], the animation loop and the resize handler. *)

From stdpp Require Import base list.
From Stdlib Require Import Reals Lra Lia ZArith String.

Open Scope R_scope.

(** ** Types and helper functions *)

Module Vec.

(** [interface Vector { x; y }] *)
Record Vector : Type := mk { x : R; y : R }.

Definition dot (v1 v2 : Vector) : R := x v1 * x v2 + y v1 * y v2.
Definition sub (v1 v2 : Vector) : Vector := mk (x v1 - x v2) (y v1 - y v2).
Definition add (v1 v2 : Vector) : Vector := mk (x v1 + x v2) (y v1 + y v2).
Definition mult (v : Vector) (s : R) : Vector := mk (x v * s) (y v * s).
Definition length (v : Vector) : R := sqrt (x v * x v + y v * y v).

(** [len === 0 ? {x: 0, y: 0} : {x: v.x / len, y: v.y / len}] *)
Definition normalize (v : Vector) : Vector :=
  let len := length v in
  if Req_dec_T len 0 then mk 0 0 else mk (x v / len) (y v / len).

(** The same function with the division made partial: [checked_div]
    fails on a zero divisor, so [normalize_checked] returns [None]
    exactly when the source would evaluate a division by zero. *)
Definition checked_div (a b : R) : option R :=
  if Req_dec_T b 0 then None else Some (a / b).

Definition normalize_checked (v : Vector) : option Vector :=
  let len := length v in
  if Req_dec_T len 0 then Some (mk 0 0)
  else match checked_div (x v) len, checked_div (y v) len with
       | Some a, Some b => Some (mk a b)
       | _, _ => None
       end.

End Vec.

Abbreviation Vector := Vec.Vector.

(** [interface Ball].  The fields [id], [x], [y] carry a prefix, the names
    being taken by the identity function and by [Vector]. *)
Record Ball : Type := mkBall {
  ball_id : Z;
  ball_x : R;
  ball_y : R;
  vx : R;
  vy : R;
  radius : R;
  color : string;
  mass : R
}.

(** A ball passed where a [Vector] is expected ([sub(other, ball)]) is read
    through its fields [x] and [y]; [velocity] is [{x: ball.vx, y: ball.vy}]. *)
Definition position (b : Ball) : Vector := Vec.mk (ball_x b) (ball_y b).
Definition velocity (b : Ball) : Vector := Vec.mk (vx b) (vy b).

(** Assignments to [ball.x], [ball.y] and to [ball.vx], [ball.vy]. *)
Definition setPosition (b : Ball) (nx ny : R) : Ball :=
  mkBall (ball_id b) nx ny (vx b) (vy b) (radius b) (color b) (mass b).
Definition setVelocity (b : Ball) (nvx nvy : R) : Ball :=
  mkBall (ball_id b) (ball_x b) (ball_y b) nvx nvy (radius b) (color b) (mass b).

(** Two balls that agree on every field but [color] and [mass]. *)
Definition samePhysics (b1 b2 : Ball) : Prop :=
  ball_id b1 = ball_id b2
  /\ position b1 = position b2
  /\ velocity b1 = velocity b2
  /\ radius b1 = radius b2.

(** ** Constants *)

Definition GRAVITY : R := 0.15.
Definition FRICTION : R := 0.99.
Definition WALL_BOUNCE : R := 0.7.
Definition ROTATION_SPEED : R := 0.01.
Definition HEPTAGON_SIDES : nat := 7.
Definition SUB_STEPS : nat := 8.
(** [const restitution = 0.8], local to the ball-to-ball branch. *)
Definition restitution : R := 0.8.

(** [Math.atan2(y, x)]: the angle of the point [(x, y)], in (-PI, PI], and
    0 at the origin. *)
Definition atan2 (py px : R) : R :=
  if Rlt_dec 0 px then atan (py / px)
  else if Rlt_dec px 0 then
    (if Rle_dec 0 py then atan (py / px) + PI else atan (py / px) - PI)
  else if Rlt_dec 0 py then PI / 2
  else if Rlt_dec py 0 then - (PI / 2)
  else 0.

(** Unfolds the vector helpers in the goal. *)
Ltac vec := unfold Vec.dot, Vec.sub, Vec.add, Vec.mult; simpl.

(** The simulation state that [updatePhysics] mutates. *)
Record State : Type := mkState {
  rotationAngle : R;
  balls : list Ball
}.

(** ** The physics engine

    [width] and [height] are the window size read when the effect starts;
    everything below is the closure of [useEffect] over them. *)

Section Simulation.

Variables width height : R.

Definition centerX : R := width / 2.
Definition centerY : R := height / 2.
Definition heptagonRadius : R := Rmin width height * 0.4.
Definition center : Vector := Vec.mk centerX centerY.

(** [let rotationAngle = 0] and the freshly created balls. *)
Definition initialState (bs : list Ball) : State := mkState 0 bs.

(** *** Heptagon vertices *)

Definition vertex (angle : R) (i : nat) : Vector :=
  let theta := angle + (INR i * 2 * PI) / INR HEPTAGON_SIDES in
  Vec.mk (centerX + heptagonRadius * cos theta)
         (centerY + heptagonRadius * sin theta).

Definition heptagonVertices (angle : R) : list Vector :=
  map (vertex angle) (seq 0 HEPTAGON_SIDES).

(** *** Forces and motion *)

Definition dt : R := 1 / INR SUB_STEPS.

Definition applyForces (ball : Ball) : Ball :=
  let vy1 := vy ball + GRAVITY * dt in
  let vx2 := vx ball * FRICTION in
  let vy2 := vy1 * FRICTION in
  setVelocity ball vx2 vy2.

Definition moveBall (ball : Ball) : Ball :=
  setPosition ball (ball_x ball + vx ball * dt) (ball_y ball + vy ball * dt).

(** *** Wall collision, one edge [p1 -> p2] *)

(** The inward normal of the edge. *)
Definition wallNormal (p1 p2 : Vector) : Vector :=
  let wallVec := Vec.sub p2 p1 in
  let wallUnit := Vec.normalize wallVec in
  let mid := Vec.mult (Vec.add p1 p2) 0.5 in
  let toCenter := Vec.sub center mid in
  let normal := Vec.mk (- Vec.y wallUnit) (Vec.x wallUnit) in
  if Rlt_dec (Vec.dot normal toCenter) 0
  then Vec.mk (- Vec.x normal) (- Vec.y normal)
  else normal.

(** Distance of the ball centre from the infinite line of the wall. *)
Definition wallDist (p1 p2 : Vector) (ball : Ball) : R :=
  let toBall := Vec.sub (position ball) p1 in
  Vec.dot toBall (wallNormal p1 p2).

(** 1. Position correction (push out). *)
Definition pushOut (normal : Vector) (overlap : R) (ball : Ball) : Ball :=
  setPosition ball (ball_x ball + Vec.x normal * overlap)
                   (ball_y ball + Vec.y normal * overlap).

(** The wall velocity [wallV] at the (already corrected) ball position. *)
Definition wallV (ball : Ball) : Vector :=
  let rVector := Vec.sub (position ball) center in
  let distFromCenter := Vec.length rVector in
  let wallSpeed := distFromCenter * ROTATION_SPEED * 60 in
  Vec.mk
    (- sin (atan2 (ball_y ball - centerY) (ball_x ball - centerX))
       * wallSpeed * 0.2)
    (cos (atan2 (ball_y ball - centerY) (ball_x ball - centerX))
       * wallSpeed * 0.2).

(** [vRel] and [vRelDotN]. *)
Definition wallRelVel (ball : Ball) : Vector :=
  Vec.sub (velocity ball) (wallV ball).

(** 2. Velocity reflection. *)
Definition reflect (normal : Vector) (ball : Ball) : Ball :=
  let wv := wallV ball in
  let vRel := wallRelVel ball in
  let vRelDotN := Vec.dot vRel normal in
  if Rlt_dec vRelDotN 0 then
    let j := - (1 + WALL_BOUNCE) * vRelDotN in
    let impulse := Vec.mult normal j in
    setVelocity ball ((Vec.x vRel + Vec.x impulse) + Vec.x wv)
                     ((Vec.y vRel + Vec.y impulse) + Vec.y wv)
  else ball.

(** The body of the loop over the edges.  The source also computes
    [wallLen], [projection], [rVector], [wallVel] and [tangent] and sets
    [collided]; none of them is read afterwards. *)
Definition wallCollide (p1 p2 : Vector) (ball : Ball) : Ball :=
  let normal := wallNormal p1 p2 in
  let dist := wallDist p1 p2 ball in
  if Rlt_dec dist (radius ball) then
    let overlap := radius ball - dist in
    reflect normal (pushOut normal overlap ball)
  else ball.

(** The ball after step 1 of a contact with the wall, and [vRelDotN] as
    step 2 then computes it. *)
Definition pushedOut (p1 p2 : Vector) (ball : Ball) : Ball :=
  pushOut (wallNormal p1 p2) (radius ball - wallDist p1 p2 ball) ball.
Definition wallNormalSpeed (p1 p2 : Vector) (ball : Ball) : R :=
  Vec.dot (wallRelVel (pushedOut p1 p2 ball)) (wallNormal p1 p2).

(** [vertices[i]]; the index is below [HEPTAGON_SIDES] at every use. *)
Definition vertexAt (vertices : list Vector) (i : nat) : Vector :=
  nth i vertices (Vec.mk 0 0).

(** [for (let i = 0; i < HEPTAGON_SIDES; i++)] *)
Definition wallCollisions (vertices : list Vector) (ball : Ball) : Ball :=
  fold_left
    (fun b i =>
       wallCollide (vertexAt vertices i)
                   (vertexAt vertices ((i + 1) mod HEPTAGON_SIDES)) b)
    (seq 0 HEPTAGON_SIDES) ball.

(** *** Ball to ball collision, one pair *)

Definition distVec (ball other : Ball) : Vector :=
  Vec.sub (position other) (position ball).
Definition minDist (ball other : Ball) : R := radius ball + radius other.
(** [n] *)
Definition contactNormal (ball other : Ball) : Vector :=
  Vec.normalize (distVec ball other).
(** [vRel] and [vn] *)
Definition relVel (ball other : Ball) : Vector :=
  Vec.sub (velocity ball) (velocity other).
Definition normalSpeed (ball other : Ball) : R :=
  Vec.dot (relVel ball other) (contactNormal ball other).

(** Separate balls to prevent sticking. *)
Definition separate (ball other : Ball) : Ball * Ball :=
  let d := Vec.length (distVec ball other) in
  let overlap := minDist ball other - d in
  let n := contactNormal ball other in
  let correction := Vec.mult n (overlap * 0.5) in
  (setPosition ball (ball_x ball - Vec.x correction)
                    (ball_y ball - Vec.y correction),
   setPosition other (ball_x other + Vec.x correction)
                     (ball_y other + Vec.y correction)).

(** The velocity exchange, after the [vn > 0] exit. *)
Definition exchange (n : Vector) (vn : R) (ball other : Ball) : Ball * Ball :=
  let impulseScalar := (- (1 + restitution) * vn) / 2 in
  let impulse := Vec.mult n impulseScalar in
  (setVelocity ball (vx ball + Vec.x impulse) (vy ball + Vec.y impulse),
   setVelocity other (vx other - Vec.x impulse) (vy other - Vec.y impulse)).

(** The body of the loop over [j], for [ball.id !== other.id]. *)
Definition collide (ball other : Ball) : Ball * Ball :=
  let d := Vec.length (distVec ball other) in
  if Rlt_dec d (minDist ball other) then
    let n := contactNormal ball other in
    let '(ball1, other1) := separate ball other in
    let vn := Vec.dot (relVel ball1 other1) n in
    if Rgt_dec vn 0 then (ball1, other1)
    else exchange n vn ball1 other1
  else (ball, other).

(** [for (let j = 0; j < balls.length; j++)], for the ball at index [i];
    [js] is the list of the indices [j] still to visit.  [ball] is the
    object at index [i], so every iteration reads it afresh. *)
Fixpoint ballCollisions (i : nat) (js : list nat) (bs : list Ball)
  : list Ball :=
  match js with
  | [] => bs
  | j :: js' =>
      match bs !! i, bs !! j with
      | Some ball, Some other =>
          if Z.eqb (ball_id ball) (ball_id other)
          then ballCollisions i js' bs
          else
            let '(ball1, other1) := collide ball other in
            ballCollisions i js' (<[j := other1]> (<[i := ball1]> bs))
      | _, _ => ballCollisions i js' bs
      end
  end.

(** The callback of [balls.forEach], at index [i]. *)
Definition stepBall (vertices : list Vector) (bs : list Ball) (i : nat)
  : list Ball :=
  match bs !! i with
  | Some ball =>
      let ball1 := wallCollisions vertices (moveBall (applyForces ball)) in
      ballCollisions i (seq 0 (List.length bs)) (<[i := ball1]> bs)
  | None => bs
  end.

(** One sub-step: [balls.forEach(...)]. *)
Definition subStep (vertices : list Vector) (bs : list Ball) : list Ball :=
  fold_left (stepBall vertices) (seq 0 (List.length bs)) bs.

(** [for (let step = 0; step < SUB_STEPS; step++)] *)
Definition subSteps (vertices : list Vector) (bs : list Ball) : list Ball :=
  Nat.iter SUB_STEPS (subStep vertices) bs.

Definition updatePhysics (s : State) : State :=
  let angle := rotationAngle s + ROTATION_SPEED in
  let vertices := heptagonVertices angle in
  mkState angle (subSteps vertices (balls s)).

(** [n] calls of [updatePhysics], one per animation frame. *)
Definition frames (n : nat) (s : State) : State :=
  Nat.iter n updatePhysics s.


(** *** Initial balls and colours

    [numberToString] is the conversion of a number to text that the
    template literal of [randomColor] performs.  The [k]-th call of
    [Math.random] returns [random k]; a ball takes five calls, in the order
    of its fields [x], [y], [vx], [vy], [radius]. *)

Definition NUM_BALLS : nat := 20.

Variable numberToString : R -> string.
Variable random : nat -> R.

Definition hue (index total : R) : R := (index * 360) / total.

Definition randomColor (index total : R) : string :=
  String.append "hsl("
    (String.append (numberToString (hue index total)) ", 70%, 60%)").

Definition initBall (i : nat) : Ball :=
  mkBall (Z.of_nat i + 1)%Z
    (centerX + (random (5 * i) - 0.5) * 100)
    (centerY + (random (5 * i + 1) - 0.5) * 100)
    ((random (5 * i + 2) - 0.5) * 15)
    ((random (5 * i + 3) - 0.5) * 15)
    (12 + random (5 * i + 4) * 8)
    (randomColor (INR i) (INR NUM_BALLS))
    1.

(** [Array.from({ length: NUM_BALLS }).map((_, i) => ...)] *)
Definition initBalls : list Ball := map initBall (seq 0 NUM_BALLS).

(** *** Quantities observed on the state *)

(** The sum of the velocities, and of the positions, of all the balls. *)
Definition totalVelocity (bs : list Ball) : Vector :=
  fold_right (fun b acc => Vec.add (velocity b) acc) (Vec.mk 0 0) bs.
Definition totalPosition (bs : list Ball) : Vector :=
  fold_right (fun b acc => Vec.add (position b) acc) (Vec.mk 0 0) bs.

(** The squared speed of a ball (twice its kinetic energy, the code taking
    every mass as 1). *)
Definition speedSquared (b : Ball) : R := Vec.dot (velocity b) (velocity b).

(** The vertical velocity that [applyForces] leaves unchanged. *)
Definition terminalFall : R := GRAVITY * dt * FRICTION / (1 - FRICTION).

(** The fields of a ball that no assignment of [updatePhysics] targets. *)
Definition identity (b : Ball) : Z * R * string * R :=
  (ball_id b, radius b, color b, mass b).

(** The edge [i] of a list of vertices, from [vertices[i]] to
    [vertices[(i + 1) % HEPTAGON_SIDES]]. *)
Definition edgeVec (vertices : list Vector) (i : nat) : Vector :=
  Vec.sub (vertexAt vertices ((i + 1) mod HEPTAGON_SIDES))
          (vertexAt vertices i).

(** *** Example inputs

    The head-on pair of the design document: radius 10, mass 1, centres
    (0,0) and (15,0), velocities (5,0) and (-5,0). *)
Definition headOnA : Ball := mkBall 1 0 0 5 0 10 "red" 1.
Definition headOnB : Ball := mkBall 2 15 0 (-5) 0 10 "blue" 1.

(** The same two balls moving apart. *)
Definition apartA : Ball := mkBall 1 0 0 (-5) 0 10 "red" 1.
Definition apartB : Ball := mkBall 2 15 0 5 0 10 "blue" 1.

(** Two balls of radius 10 on the same point. *)
Definition stackedA : Ball := mkBall 1 3 4 1 0 10 "red" 1.
Definition stackedB : Ball := mkBall 2 3 4 0 2 10 "blue" 1.

(** The head-on pair again with other colours and masses. *)
Definition headOnA' : Ball := mkBall 1 0 0 5 0 10 "green" 2.
Definition headOnB' : Ball := mkBall 2 15 0 (-5) 0 10 "blue" 7.

(** A horizontal wall on the line [y = 0], in a window of 200 by 200
    (centre (100,100)), and balls of radius 10 near it. *)
Definition wallP1 : Vector := Vec.mk 0 0.
Definition wallP2 : Vector := Vec.mk 200 0.
Definition tangentBall : Ball := mkBall 1 100 10 0 0 10 "red" 1.
Definition leavingBall : Ball := mkBall 1 100 5 0 1 10 "red" 1.
Definition hittingBall : Ball := mkBall 1 100 5 0 (-1) 10 "red" 1.

(** A ball at the centre of the window of 200 by 200, at rest, and one
    whose upward velocity gravity cancels in one sub-step. *)
Definition centreBall : Ball := mkBall 1 100 100 0 0 10 "red" 1.
Definition hoveringBall : Ball := mkBall 1 100 100 0 (-0.01875) 10 "red" 1.

(** A second ball on the same point, which its own move takes one unit to
    the right. *)
Definition slidingBall : Ball :=
  mkBall 2 100 100 (800 / 99) (-0.01875) 10 "blue" 1.

(** ** Geometry kernel *)

Lemma sumsq_zero (a b : R) : a * a + b * b = 0 -> a = 0 /\ b = 0.
Proof. intros H. split; nra. Qed.

Lemma length_sqr (v : Vector) :
  Vec.length v * Vec.length v = Vec.dot v v.
Proof. unfold Vec.length, Vec.dot. apply sqrt_sqrt. nra. Qed.

Lemma length_zero_iff (v : Vector) : Vec.length v = 0 <-> v = Vec.mk 0 0.
Proof.
  destruct v as [a b]; unfold Vec.length; simpl. split.
  - intros H. apply sqrt_eq_0 in H; [|nra].
    destruct (sumsq_zero _ _ H) as [-> ->]. reflexivity.
  - intros [= -> ->]. replace (0 * 0 + 0 * 0) with 0 by ring. apply sqrt_0.
Qed.

Lemma normalize_zero (v : Vector) :
  Vec.length v = 0 -> Vec.normalize v = Vec.mk 0 0.
Proof.
  intros H. unfold Vec.normalize.
  destruct (Req_dec_T _ 0); [reflexivity|contradiction].
Qed.

Lemma normalize_nonzero (v : Vector) :
  Vec.length v <> 0 ->
  Vec.normalize v = Vec.mk (Vec.x v / Vec.length v) (Vec.y v / Vec.length v).
Proof.
  intros H. unfold Vec.normalize.
  destruct (Req_dec_T _ 0); [contradiction|reflexivity].
Qed.

Lemma normalize_unit (v : Vector) :
  Vec.length v <> 0 -> Vec.dot (Vec.normalize v) (Vec.normalize v) = 1.
Proof.
  intros H. rewrite (normalize_nonzero _ H).
  pose proof (length_sqr v) as Hs. unfold Vec.dot in *. simpl.
  field_simplify_eq; [|exact H]. nra.
Qed.

(** Scaling back a unit direction: [normalize v * length v = v]. *)
Lemma normalize_scale (v : Vector) :
  Vec.mult (Vec.normalize v) (Vec.length v) = v.
Proof.
  destruct (Req_dec_T (Vec.length v) 0) as [H|H].
  - rewrite (normalize_zero _ H), H.
    apply length_zero_iff in H. subst v. vec. f_equal; ring.
  - rewrite (normalize_nonzero _ H). destruct v as [a b]. vec.
    f_equal; field; exact H.
Qed.

(** C8. [normalize] of the zero vector is the zero vector; for every other
    vector the length is not zero and the result is the vector divided by
    its length; and no evaluation of [normalize] divides by zero: the
    version with a partial division always succeeds, with the same
    result. *)
Theorem normalize_guarded :
  Vec.normalize (Vec.mk 0 0) = Vec.mk 0 0
  /\ (forall v : Vector, v <> Vec.mk 0 0 ->
        Vec.length v <> 0
        /\ Vec.normalize v
           = Vec.mk (Vec.x v / Vec.length v) (Vec.y v / Vec.length v))
  /\ (forall v : Vector, Vec.normalize_checked v = Some (Vec.normalize v)).
Proof.
  split; [|split].
  - apply normalize_zero, length_zero_iff. reflexivity.
  - intros v Hv.
    assert (Hl : Vec.length v <> 0) by (rewrite length_zero_iff; exact Hv).
    split; [exact Hl|]. apply normalize_nonzero, Hl.
  - intros v. unfold Vec.normalize_checked, Vec.normalize, Vec.checked_div.
    destruct (Req_dec_T (Vec.length v) 0); reflexivity.
Qed.

(** ** Wall contact *)

(** The normal is the rotated unit direction or its opposite, so it has
    the same square as the unit direction of the wall. *)
Lemma wallNormal_sqr (p1 p2 : Vector) :
  Vec.dot (wallNormal p1 p2) (wallNormal p1 p2)
  = Vec.dot (Vec.normalize (Vec.sub p2 p1)) (Vec.normalize (Vec.sub p2 p1)).
Proof.
  unfold wallNormal. cbv zeta.
  destruct (Rlt_dec _ 0); vec; ring.
Qed.

Lemma wallNormal_degenerate (p1 p2 : Vector) :
  Vec.length (Vec.sub p2 p1) = 0 -> wallNormal p1 p2 = Vec.mk 0 0.
Proof.
  intros H. unfold wallNormal. cbv zeta. rewrite (normalize_zero _ H).
  destruct (Rlt_dec _ 0); vec; f_equal; ring.
Qed.

Lemma wallNormal_unit (p1 p2 : Vector) :
  Vec.length (Vec.sub p2 p1) <> 0 ->
  Vec.dot (wallNormal p1 p2) (wallNormal p1 p2) = 1.
Proof. intros H. rewrite wallNormal_sqr. apply normalize_unit, H. Qed.

(** A wall normal with a non-zero projection of anything is a unit. *)
Lemma wallNormal_unit_of_dot (p1 p2 v : Vector) :
  Vec.dot v (wallNormal p1 p2) <> 0 ->
  Vec.dot (wallNormal p1 p2) (wallNormal p1 p2) = 1.
Proof.
  intros H. apply wallNormal_unit. intros Hl. apply H.
  rewrite (wallNormal_degenerate _ _ Hl). vec. ring.
Qed.

Lemma wallCollide_contact (p1 p2 : Vector) (ball : Ball) :
  wallDist p1 p2 ball < radius ball ->
  wallCollide p1 p2 ball = reflect (wallNormal p1 p2) (pushedOut p1 p2 ball).
Proof.
  intros H. unfold wallCollide. cbv zeta.
  destruct (Rlt_dec _ _); [reflexivity|contradiction].
Qed.

Lemma reflect_position (n : Vector) (ball : Ball) :
  position (reflect n ball) = position ball.
Proof. unfold reflect. cbv zeta. destruct (Rlt_dec _ 0); reflexivity. Qed.

Lemma wallV_position (b1 b2 : Ball) :
  position b1 = position b2 -> wallV b1 = wallV b2.
Proof.
  unfold wallV, position. intros [= Hx Hy]. cbv zeta. simpl.
  rewrite Hx, Hy. reflexivity.
Qed.

(** C7. A ball whose distance from the line of a wall is exactly its
    radius is no contact for that wall: the test is [dist < radius], and
    the ball leaves the wall code as it entered it, position and velocity
    included. *)
Theorem tangent_wall_no_contact (p1 p2 : Vector) (ball : Ball) :
  wallDist p1 p2 ball = radius ball ->
  ~ wallDist p1 p2 ball < radius ball
  /\ wallCollide p1 p2 ball = ball.
Proof.
  intros H. split; [lra|].
  unfold wallCollide. cbv zeta.
  destruct (Rlt_dec _ _) as [Hlt|_]; [lra|reflexivity].
Qed.


(** The relative velocity along the normal after the wall impulse. *)
Lemma reflect_normal_speed (n : Vector) (ball : Ball) :
  Vec.dot (wallRelVel ball) n < 0 ->
  Vec.dot n n = 1 ->
  Vec.dot (wallRelVel (reflect n ball)) n
  = - WALL_BOUNCE * Vec.dot (wallRelVel ball) n.
Proof.
  intros Hneg Hunit.
  assert (Hw : wallV (reflect n ball) = wallV ball)
    by (apply wallV_position, reflect_position).
  unfold wallRelVel at 1. rewrite Hw.
  unfold reflect. cbv zeta.
  destruct (Rlt_dec _ 0) as [_|Hn]; [|contradiction].
  revert Hneg Hunit. generalize (wallRelVel ball) (wallV ball).
  intros r w Hneg Hunit.
  unfold velocity, setVelocity, WALL_BOUNCE, Vec.dot in *. vec.
  transitivity
    ((Vec.x r * Vec.x n + Vec.y r * Vec.y n)
     * (1 - (1 + 0.7) * (Vec.x n * Vec.x n + Vec.y n * Vec.y n))).
  - ring.
  - rewrite Hunit. lra.
Qed.

(** ** Ball to ball contact *)

Lemma collide_contact (ball other : Ball) :
  Vec.length (distVec ball other) < minDist ball other ->
  collide ball other
  = if Rgt_dec (normalSpeed ball other) 0
    then separate ball other
    else exchange (contactNormal ball other) (normalSpeed ball other)
           (fst (separate ball other)) (snd (separate ball other)).
Proof.
  intros H. unfold collide. cbv zeta.
  destruct (Rlt_dec _ _); [|contradiction]. reflexivity.
Qed.

Lemma collide_no_contact (ball other : Ball) :
  ~ Vec.length (distVec ball other) < minDist ball other ->
  collide ball other = (ball, other).
Proof.
  intros H. unfold collide. cbv zeta.
  destruct (Rlt_dec _ _); [contradiction|reflexivity].
Qed.

(** The velocity exchange adds an impulse to one ball and takes the same
    impulse from the other. *)
Lemma exchange_sum (n : Vector) (vn : R) (b o : Ball) :
  Vec.add (velocity (fst (exchange n vn b o)))
          (velocity (snd (exchange n vn b o)))
  = Vec.add (velocity b) (velocity o).
Proof. unfold exchange, velocity. vec. f_equal; ring. Qed.

Lemma exchange_normal_speed (n : Vector) (b o : Ball) :
  Vec.dot n n = 1 \/ Vec.dot (relVel b o) n = 0 ->
  Vec.dot (relVel (fst (exchange n (Vec.dot (relVel b o) n) b o))
                  (snd (exchange n (Vec.dot (relVel b o) n) b o))) n
  = - restitution * Vec.dot (relVel b o) n.
Proof.
  intros H. unfold exchange, relVel, velocity, restitution in *.
  revert H. vec. intros H.
  set (rx := vx b - vx o) in *. set (ry := vy b - vy o) in *.
  transitivity
    ((rx * Vec.x n + ry * Vec.y n)
     * (1 - (1 + 0.8) * (Vec.x n * Vec.x n + Vec.y n * Vec.y n))).
  - subst rx ry. field.
  - destruct H as [H|H]; rewrite H; lra.
Qed.

Lemma contactNormal_unit_or_zero (ball other : Ball) :
  Vec.dot (contactNormal ball other) (contactNormal ball other) = 1
  \/ contactNormal ball other = Vec.mk 0 0.
Proof.
  unfold contactNormal.
  destruct (Req_dec_T (Vec.length (distVec ball other)) 0) as [H|H].
  - right. apply normalize_zero, H.
  - left. apply normalize_unit, H.
Qed.


Lemma separate_coincident (ball other : Ball) :
  position other = position ball -> separate ball other = (ball, other).
Proof.
  intros H.
  assert (Hn : contactNormal ball other = Vec.mk 0 0).
  { unfold contactNormal. apply normalize_zero, length_zero_iff.
    unfold distVec. rewrite H. vec. f_equal; ring. }
  unfold separate. cbv zeta. rewrite Hn.
  destruct ball, other. unfold setPosition. vec. f_equal; f_equal; ring.
Qed.

Lemma exchange_coincident (vn : R) (ball other : Ball) :
  exchange (Vec.mk 0 0) vn ball other = (ball, other).
Proof.
  destruct ball, other. unfold exchange, setVelocity. vec.
  f_equal; f_equal; ring.
Qed.

(** ** The properties of the resolvers *)

(** A wall contact in which the ball does not move into the wall, relative
    to the wall: the velocity is kept, and the centre is moved along the
    normal by [radius - dist]. *)
Lemma wall_separating_inert (p1 p2 : Vector) (ball : Ball) :
  wallDist p1 p2 ball < radius ball ->
  0 <= wallNormalSpeed p1 p2 ball ->
  velocity (wallCollide p1 p2 ball) = velocity ball
  /\ position (wallCollide p1 p2 ball)
     = Vec.add (position ball)
         (Vec.mult (wallNormal p1 p2) (radius ball - wallDist p1 p2 ball)).
Proof.
  intros Hc Hsep.
  assert (E : wallCollide p1 p2 ball = pushedOut p1 p2 ball).
  { rewrite (wallCollide_contact _ _ _ Hc).
    unfold wallNormalSpeed in Hsep. unfold reflect. cbv zeta.
    destruct (Rlt_dec _ 0) as [Hlt|_]; [lra|reflexivity]. }
  rewrite E. split; reflexivity.
Qed.

(** C3. Whenever the velocity exchange of the pair code runs (a contact
    that does not take the [vn > 0] exit), the sum of the two velocity
    vectors is the same after it as before.  The masses play no part in
    the code; the statement keeps the hypothesis of the design
    document. *)
Theorem pairwise_momentum_conserved (ball other : Ball) :
  mass ball = mass other ->
  Vec.length (distVec ball other) < minDist ball other ->
  ~ normalSpeed ball other > 0 ->
  Vec.add (velocity (fst (collide ball other)))
          (velocity (snd (collide ball other)))
  = Vec.add (velocity ball) (velocity other).
Proof.
  intros _ Hc Hvn. rewrite (collide_contact _ _ Hc).
  destruct (Rgt_dec _ 0) as [Hgt|_]; [contradiction|].
  rewrite exchange_sum. reflexivity.
Qed.

(** C4. Whenever a velocity impulse is applied, the relative speed along
    the contact normal after it is at most the restitution coefficient
    times the relative speed along the normal before it: [WALL_BOUNCE]
    for a wall (relative to the wall velocity [wallV]), [restitution]
    for a pair of balls. *)
Theorem normal_speed_scaled_by_restitution :
  (forall (p1 p2 : Vector) (ball : Ball),
      wallDist p1 p2 ball < radius ball ->
      wallNormalSpeed p1 p2 ball < 0 ->
      Rabs (Vec.dot (wallRelVel (wallCollide p1 p2 ball))
                    (wallNormal p1 p2))
      <= WALL_BOUNCE * Rabs (wallNormalSpeed p1 p2 ball))
  /\ (forall ball other : Ball,
      Vec.length (distVec ball other) < minDist ball other ->
      ~ normalSpeed ball other > 0 ->
      Rabs (Vec.dot (relVel (fst (collide ball other))
                            (snd (collide ball other)))
                    (contactNormal ball other))
      <= restitution * Rabs (normalSpeed ball other)).
Proof.
  split.
  - intros p1 p2 ball Hc Hneg.
    rewrite (wallCollide_contact _ _ _ Hc). unfold wallNormalSpeed in *.
    rewrite (reflect_normal_speed _ _ Hneg).
    + rewrite Rabs_mult, Rabs_Ropp, (Rabs_pos_eq WALL_BOUNCE)
        by (unfold WALL_BOUNCE; lra).
      apply Rle_refl.
    + apply wallNormal_unit_of_dot
        with (v := wallRelVel (pushedOut p1 p2 ball)).
      lra.
  - intros ball other Hc Hvn. rewrite (collide_contact _ _ Hc).
    destruct (Rgt_dec _ 0) as [Hgt|_]; [contradiction|].
    unfold normalSpeed.
    change (relVel ball other)
      with (relVel (fst (separate ball other)) (snd (separate ball other))).
    rewrite exchange_normal_speed.
    + rewrite Rabs_mult, Rabs_Ropp, (Rabs_pos_eq restitution)
        by (unfold restitution; lra).
      apply Rle_refl.
    + destruct (contactNormal_unit_or_zero ball other) as [H|H];
        [left; exact H|right]. rewrite H. vec. ring.
Qed.

(** C10, as the code has it.  Two balls with the same centre are a contact
    as soon as the sum of the radii is positive, and one visit of the pair
    does nothing to them: the normal is the zero vector of [normalize], the
    separation and the velocity exchange return the balls as they were, and
    the centre distance is still 0 after that visit. *)
Theorem coincident_centers_noop (ball other : Ball) :
  ball_x other = ball_x ball ->
  ball_y other = ball_y ball ->
  Vec.length (distVec ball other) = 0
  /\ (0 < minDist ball other ->
      Vec.length (distVec ball other) < minDist ball other)
  /\ contactNormal ball other = Vec.mk 0 0
  /\ separate ball other = (ball, other)
  /\ exchange (contactNormal ball other) (normalSpeed ball other) ball other
     = (ball, other)
  /\ collide ball other = (ball, other)
  /\ Vec.length (distVec (fst (collide ball other))
                         (snd (collide ball other))) = 0.
Proof.
  intros Hx Hy.
  assert (Hp : position other = position ball)
    by (unfold position; rewrite Hx, Hy; reflexivity).
  assert (Hd : Vec.length (distVec ball other) = 0).
  { apply length_zero_iff. unfold distVec. rewrite Hp. vec. f_equal; ring. }
  assert (Hn : contactNormal ball other = Vec.mk 0 0)
    by (apply normalize_zero, Hd).
  assert (Hcol : collide ball other = (ball, other)).
  { destruct (Rlt_dec (Vec.length (distVec ball other)) (minDist ball other))
      as [Hc|Hc].
    - rewrite (collide_contact _ _ Hc), (separate_coincident _ _ Hp).
      simpl. rewrite Hn, exchange_coincident.
      destruct (Rgt_dec _ 0); reflexivity.
    - apply collide_no_contact, Hc. }
  repeat split.
  - exact Hd.
  - intros Hr. rewrite Hd. exact Hr.
  - exact Hn.
  - apply separate_coincident, Hp.
  - rewrite Hn. apply exchange_coincident.
  - exact Hcol.
  - rewrite Hcol. exact Hd.
Qed.


(** ** The edges of the heptagon *)

Lemma cos_lt_1 (d : R) : 0 < d < 2 * PI -> cos d < 1.
Proof.
  intros [H0 H1]. replace d with (2 * (d / 2)) by field.
  rewrite cos_2a_sin.
  assert (Hs : 0 < sin (d / 2)) by (apply sin_gt_0; lra).
  nra.
Qed.

Lemma same_point_cos (a b : R) :
  cos a = cos b -> sin a = sin b -> cos (a - b) = 1.
Proof.
  intros Hc Hs. rewrite cos_minus, Hc, Hs.
  pose proof (sin2_cos2 b) as H. unfold Rsqr in H. lra.
Qed.

Lemma vertex_distinct (angle : R) (i j : nat) :
  heptagonRadius <> 0 ->
  0 < (INR i - INR j) * 2 * PI / INR HEPTAGON_SIDES < 2 * PI ->
  vertex angle i <> vertex angle j.
Proof.
  intros HR Hd Heq. unfold vertex in Heq. cbv zeta in Heq.
  assert (Hk : INR HEPTAGON_SIDES <> 0)
    by (unfold HEPTAGON_SIDES; simpl; lra).
  revert Hd Heq Hk. generalize (INR HEPTAGON_SIDES). intros k Hd Heq Hk.
  injection Heq as Hx Hy.
  apply Rplus_eq_reg_l, Rmult_eq_reg_l in Hx; [|exact HR].
  apply Rplus_eq_reg_l, Rmult_eq_reg_l in Hy; [|exact HR].
  pose proof (same_point_cos _ _ Hx Hy) as H1.
  pose proof (cos_lt_1 _ Hd) as H2.
  replace (angle + INR i * 2 * PI / k - (angle + INR j * 2 * PI / k))
    with ((INR i - INR j) * 2 * PI / k) in H1 by (field; exact Hk).
  lra.
Qed.

(** The two ends of every edge of the heptagon are different points. *)
Lemma edge_nondegenerate (angle : R) (i : nat) :
  heptagonRadius <> 0 ->
  (i < HEPTAGON_SIDES)%nat ->
  Vec.length
    (Vec.sub (vertexAt (heptagonVertices angle) ((i + 1) mod HEPTAGON_SIDES))
             (vertexAt (heptagonVertices angle) i)) <> 0.
Proof.
  intros HR Hi Hl. apply length_zero_iff in Hl.
  assert (Heq : vertexAt (heptagonVertices angle) ((i + 1) mod HEPTAGON_SIDES)
                = vertexAt (heptagonVertices angle) i).
  { revert Hl. generalize (vertexAt (heptagonVertices angle) i).
    generalize (vertexAt (heptagonVertices angle)
                  ((i + 1) mod HEPTAGON_SIDES)).
    intros [a b] [c d0]. vec. intros [= H1 H2]. f_equal; lra. }
  pose proof PI_RGT_0 as Hpi.
  unfold HEPTAGON_SIDES in Hi.
  do 7 (destruct i as [|i];
        [ unfold vertexAt, heptagonVertices in Heq; simpl in Heq;
          first [ revert Heq; apply vertex_distinct; [exact HR|];
                  unfold HEPTAGON_SIDES; simpl; lra
                | symmetry in Heq; revert Heq;
                  apply vertex_distinct; [exact HR|];
                  unfold HEPTAGON_SIDES; simpl; lra ]
        | ]).
  lia.
Qed.

(** ** Position correction *)

Lemma wallDist_corrected (p1 p2 : Vector) (ball : Ball) :
  Vec.length (Vec.sub p2 p1) <> 0 ->
  wallDist p1 p2 ball < radius ball ->
  wallDist p1 p2 (wallCollide p1 p2 ball) = radius ball.
Proof.
  intros He Hc. rewrite (wallCollide_contact _ _ _ Hc).
  pose proof (wallNormal_unit _ _ He) as Hu.
  unfold wallDist at 1. rewrite reflect_position.
  unfold pushedOut, pushOut. unfold wallDist, position, setPosition in *.
  cbv zeta in *.
  revert Hu. generalize (wallNormal p1 p2). intros n Hu.
  unfold Vec.dot in *. vec.
  set (q := (ball_x ball - Vec.x p1) * Vec.x n
            + (ball_y ball - Vec.y p1) * Vec.y n).
  transitivity (q + (radius ball - q)
                    * (Vec.x n * Vec.x n + Vec.y n * Vec.y n)).
  - subst q. ring.
  - rewrite Hu. ring.
Qed.

Lemma length_mult_unit (n : Vector) (s : R) :
  Vec.dot n n = 1 -> 0 <= s -> Vec.length (Vec.mult n s) = s.
Proof.
  intros Hu Hs. unfold Vec.length, Vec.dot in *. vec.
  replace (Vec.x n * s * (Vec.x n * s) + Vec.y n * s * (Vec.y n * s))
    with ((Vec.x n * Vec.x n + Vec.y n * Vec.y n) * (s * s)) by ring.
  rewrite Hu, Rmult_1_l. apply sqrt_square, Hs.
Qed.

Lemma collide_position (ball other : Ball) :
  Vec.length (distVec ball other) < minDist ball other ->
  position (fst (collide ball other)) = position (fst (separate ball other))
  /\ position (snd (collide ball other))
     = position (snd (separate ball other)).
Proof.
  intros Hc. rewrite (collide_contact _ _ Hc).
  destruct (Rgt_dec _ 0); split; reflexivity.
Qed.

Lemma separate_distVec (ball other : Ball) :
  distVec (fst (separate ball other)) (snd (separate ball other))
  = Vec.mult (contactNormal ball other) (minDist ball other).
Proof.
  pose proof (normalize_scale (distVec ball other)) as Hs.
  unfold separate, contactNormal in *. cbv zeta.
  revert Hs. generalize (Vec.normalize (distVec ball other)).
  generalize (Vec.length (distVec ball other)). intros d n.
  unfold distVec, position, setPosition. vec. intros [= Hx Hy].
  f_equal; lra.
Qed.

Lemma centerDist_corrected (ball other : Ball) :
  0 < Vec.length (distVec ball other) ->
  Vec.length (distVec ball other) < minDist ball other ->
  Vec.length (distVec (fst (collide ball other)) (snd (collide ball other)))
  = minDist ball other.
Proof.
  intros Hpos Hc.
  destruct (collide_position _ _ Hc) as [Hb Ho].
  unfold distVec at 1. rewrite Hb, Ho.
  change (Vec.length (distVec (fst (separate ball other))
                              (snd (separate ball other)))
          = minDist ball other).
  rewrite separate_distVec. apply length_mult_unit; [|lra].
  apply normalize_unit. lra.
Qed.


(** C5, as the code has it.  After the position correction of a wall whose
    two ends differ, the distance of the centre from the line of that
    wall is the radius; every edge of a heptagon of non-zero radius is
    such a wall; and after the position correction of a pair whose
    centres differ, the centre distance is the sum of the radii. *)
Theorem position_correction_reaches_minimum :
  (forall (p1 p2 : Vector) (ball : Ball),
      Vec.length (Vec.sub p2 p1) <> 0 ->
      wallDist p1 p2 ball < radius ball ->
      wallDist p1 p2 (wallCollide p1 p2 ball) = radius ball)
  /\ (forall (angle : R) (i : nat),
      heptagonRadius <> 0 ->
      (i < HEPTAGON_SIDES)%nat ->
      Vec.length
        (Vec.sub
           (vertexAt (heptagonVertices angle) ((i + 1) mod HEPTAGON_SIDES))
           (vertexAt (heptagonVertices angle) i)) <> 0)
  /\ (forall ball other : Ball,
      0 < Vec.length (distVec ball other) ->
      Vec.length (distVec ball other) < minDist ball other ->
      Vec.length (distVec (fst (collide ball other))
                          (snd (collide ball other)))
      = minDist ball other).
Proof.
  split; [|split].
  - apply wallDist_corrected.
  - apply edge_nondegenerate.
  - apply centerDist_corrected.
Qed.

(** ** The frame *)

Lemma frames_angle (n : nat) (s : State) :
  rotationAngle (frames n s) = rotationAngle s + INR n * ROTATION_SPEED.
Proof.
  induction n as [|n IH].
  - simpl. ring.
  - change (frames (S n) s) with (updatePhysics (frames n s)).
    unfold updatePhysics at 1. cbv zeta. cbn [rotationAngle].
    rewrite IH, S_INR. ring.
Qed.

(** C6. The angle starts at 0; one call of [updatePhysics] adds
    [ROTATION_SPEED] to it, once, whatever the number of sub-steps; after
    [n] calls it is [n * ROTATION_SPEED]; and the [SUB_STEPS] sub-steps of
    a call all run against the one list of vertices computed from the
    angle that the call has just stored. *)
Theorem rotation_once_per_frame :
  (forall bs : list Ball, rotationAngle (initialState bs) = 0)
  /\ (forall s : State,
      rotationAngle (updatePhysics s) = rotationAngle s + ROTATION_SPEED)
  /\ (forall (n : nat) (bs : list Ball),
      rotationAngle (frames n (initialState bs)) = INR n * ROTATION_SPEED)
  /\ (forall s : State,
      balls (updatePhysics s)
      = Nat.iter SUB_STEPS
          (subStep (heptagonVertices (rotationAngle (updatePhysics s))))
          (balls s))
  /\ (forall (angle : R) (i : nat),
      (i < HEPTAGON_SIDES)%nat ->
      vertexAt (heptagonVertices angle) i
      = Vec.mk
          (centerX + heptagonRadius
                     * cos (angle + INR i * 2 * PI / INR HEPTAGON_SIDES))
          (centerY + heptagonRadius
                     * sin (angle + INR i * 2 * PI / INR HEPTAGON_SIDES))).
Proof.
  repeat split.
  - intros n bs. rewrite frames_angle. simpl. ring.
  - intros angle i Hi. unfold vertexAt, heptagonVertices.
    rewrite (nth_indep _ _ (vertex angle 0%nat))
      by (rewrite length_map, length_seq; exact Hi).
    rewrite map_nth, seq_nth by exact Hi. reflexivity.
Qed.


(** ** Colour and mass are not read *)

(** Two balls related by [samePhysics] are the same record up to the
    fields [color] and [mass]. *)
Lemma samePhysics_fields (b1 b2 : Ball) :
  samePhysics b1 b2 ->
  exists c m,
    b2 = mkBall (ball_id b1) (ball_x b1) (ball_y b1) (vx b1) (vy b1)
           (radius b1) c m.
Proof.
  destruct b1, b2. unfold samePhysics, position, velocity. simpl.
  intros (-> & [= -> ->] & [= -> ->] & ->). eauto.
Qed.

Ltac same_balls H :=
  let c := fresh "c" in
  let m := fresh "m" in
  apply samePhysics_fields in H; destruct H as (c & m & ->).

Lemma applyForces_same (b1 b2 : Ball) :
  samePhysics b1 b2 -> samePhysics (applyForces b1) (applyForces b2).
Proof. intros H. same_balls H. repeat split. Qed.

Lemma moveBall_same (b1 b2 : Ball) :
  samePhysics b1 b2 -> samePhysics (moveBall b1) (moveBall b2).
Proof. intros H. same_balls H. repeat split. Qed.

Lemma pushOut_same (n : Vector) (ov : R) (b1 b2 : Ball) :
  samePhysics b1 b2 -> samePhysics (pushOut n ov b1) (pushOut n ov b2).
Proof. intros H. same_balls H. repeat split. Qed.

Lemma reflect_same (n : Vector) (b1 b2 : Ball) :
  samePhysics b1 b2 -> samePhysics (reflect n b1) (reflect n b2).
Proof.
  intros H. pose proof H as (_ & Hp & Hv & _).
  assert (Hr : wallRelVel b1 = wallRelVel b2)
    by (unfold wallRelVel; rewrite Hv, (wallV_position _ _ Hp); reflexivity).
  unfold reflect. cbv zeta. rewrite Hr, (wallV_position _ _ Hp).
  destruct (Rlt_dec _ 0); [|exact H].
  same_balls H. repeat split.
Qed.

Lemma wallCollide_same (p1 p2 : Vector) (b1 b2 : Ball) :
  samePhysics b1 b2 ->
  samePhysics (wallCollide p1 p2 b1) (wallCollide p1 p2 b2).
Proof.
  intros H. pose proof H as (_ & Hp & _ & Hrad).
  assert (Hd : wallDist p1 p2 b1 = wallDist p1 p2 b2)
    by (unfold wallDist; rewrite Hp; reflexivity).
  unfold wallCollide. cbv zeta. rewrite Hd, Hrad.
  destruct (Rlt_dec _ _); [|exact H].
  apply reflect_same, pushOut_same, H.
Qed.

Lemma wallCollisions_same (vertices : list Vector) (b1 b2 : Ball) :
  samePhysics b1 b2 ->
  samePhysics (wallCollisions vertices b1) (wallCollisions vertices b2).
Proof.
  unfold wallCollisions. generalize (seq 0 HEPTAGON_SIDES). intros idx.
  revert b1 b2. induction idx as [|i idx IH]; intros b1 b2 H; simpl.
  - exact H.
  - apply IH, wallCollide_same, H.
Qed.

Lemma collide_same (b1 b2 o1 o2 : Ball) :
  samePhysics b1 b2 -> samePhysics o1 o2 ->
  samePhysics (fst (collide b1 o1)) (fst (collide b2 o2))
  /\ samePhysics (snd (collide b1 o1)) (snd (collide b2 o2)).
Proof.
  intros Hb Ho.
  assert (Hd : distVec b1 o1 = distVec b2 o2).
  { destruct Hb as (_ & Hp & _), Ho as (_ & Hq & _).
    unfold distVec. rewrite Hp, Hq. reflexivity. }
  assert (Hm : minDist b1 o1 = minDist b2 o2).
  { destruct Hb as (_ & _ & _ & Hr), Ho as (_ & _ & _ & Hs).
    unfold minDist. rewrite Hr, Hs. reflexivity. }
  assert (Hn : contactNormal b1 o1 = contactNormal b2 o2)
    by (unfold contactNormal; rewrite Hd; reflexivity).
  assert (Hv : normalSpeed b1 o1 = normalSpeed b2 o2).
  { destruct Hb as (_ & _ & Hv & _), Ho as (_ & _ & Hw & _).
    unfold normalSpeed, relVel. rewrite Hv, Hw, Hn. reflexivity. }
  destruct (Rlt_dec (Vec.length (distVec b1 o1)) (minDist b1 o1)) as [Hc|Hc].
  - rewrite (collide_contact _ _ Hc).
    rewrite Hd, Hm in Hc. rewrite (collide_contact _ _ Hc).
    rewrite Hv, Hn. unfold separate. cbv zeta. rewrite Hn, Hd, Hm.
    same_balls Hb. same_balls Ho.
    destruct (Rgt_dec _ 0); split; repeat split.
  - rewrite (collide_no_contact _ _ Hc).
    rewrite Hd, Hm in Hc. rewrite (collide_no_contact _ _ Hc).
    split; assumption.
Qed.

Lemma ballCollisions_same (i : nat) (js : list nat) (bs1 bs2 : list Ball) :
  Forall2 samePhysics bs1 bs2 ->
  Forall2 samePhysics (ballCollisions i js bs1) (ballCollisions i js bs2).
Proof.
  revert bs1 bs2. induction js as [|j js IH]; intros bs1 bs2 H; simpl.
  - exact H.
  - destruct (bs1 !! i) as [b1|] eqn:E1.
    + destruct (Forall2_lookup_l _ _ _ _ _ H E1) as (b2 & E2 & Hb).
      rewrite E2.
      destruct (bs1 !! j) as [o1|] eqn:F1.
      * destruct (Forall2_lookup_l _ _ _ _ _ H F1) as (o2 & F2 & Ho).
        rewrite F2.
        destruct Hb as (Hid & Hb'), Ho as (Hjd & Ho').
        rewrite <- Hid, <- Hjd.
        destruct (Z.eqb _ _); [apply IH, H|].
        destruct (collide_same b1 b2 o1 o2) as [Hx Hy];
          [split; assumption | split; assumption |].
        destruct (collide b1 o1) as [x1 y1], (collide b2 o2) as [x2 y2].
        apply IH. apply Forall2_insert; [|exact Hy].
        apply Forall2_insert; [exact H|exact Hx].
      * assert (F2 : bs2 !! j = None).
        { apply lookup_ge_None. apply lookup_ge_None in F1.
          rewrite <- (Forall2_length _ _ _ H). exact F1. }
        rewrite F2. apply IH, H.
    + assert (E2 : bs2 !! i = None).
      { apply lookup_ge_None. apply lookup_ge_None in E1.
        rewrite <- (Forall2_length _ _ _ H). exact E1. }
      rewrite E2. apply IH, H.
Qed.

Lemma stepBall_same (vertices : list Vector) (bs1 bs2 : list Ball) (i : nat) :
  Forall2 samePhysics bs1 bs2 ->
  Forall2 samePhysics (stepBall vertices bs1 i) (stepBall vertices bs2 i).
Proof.
  intros H. unfold stepBall.
  rewrite <- (Forall2_length _ _ _ H).
  destruct (bs1 !! i) as [b1|] eqn:E1.
  - destruct (Forall2_lookup_l _ _ _ _ _ H E1) as (b2 & E2 & Hb).
    rewrite E2. cbv zeta. apply ballCollisions_same, Forall2_insert; [exact H|].
    apply wallCollisions_same, moveBall_same, applyForces_same, Hb.
  - assert (E2 : bs2 !! i = None).
    { apply lookup_ge_None. apply lookup_ge_None in E1.
      rewrite <- (Forall2_length _ _ _ H). exact E1. }
    rewrite E2. exact H.
Qed.

Lemma subStep_same (vertices : list Vector) (bs1 bs2 : list Ball) :
  Forall2 samePhysics bs1 bs2 ->
  Forall2 samePhysics (subStep vertices bs1) (subStep vertices bs2).
Proof.
  intros H. unfold subStep. rewrite <- (Forall2_length _ _ _ H).
  generalize (seq 0 (List.length bs1)). intros idx.
  revert bs1 bs2 H. induction idx as [|i idx IH]; intros bs1 bs2 H; simpl.
  - exact H.
  - apply IH, stepBall_same, H.
Qed.

Lemma subSteps_same (vertices : list Vector) (bs1 bs2 : list Ball) :
  Forall2 samePhysics bs1 bs2 ->
  Forall2 samePhysics (subSteps vertices bs1) (subSteps vertices bs2).
Proof.
  intros H. unfold subSteps. generalize SUB_STEPS. intros k.
  induction k as [|k IH]; simpl; [exact H|]. apply subStep_same, IH.
Qed.

(** C9. Two states with the same angle whose balls agree, index by index,
    on everything but [color] and [mass] are taken by one call of
    [updatePhysics] to states whose balls again agree on everything but
    [color] and [mass]: every ball has the same position and the same
    velocity in both. *)
Theorem physics_ignores_color_and_mass (s1 s2 : State) :
  rotationAngle s1 = rotationAngle s2 ->
  Forall2 samePhysics (balls s1) (balls s2) ->
  rotationAngle (updatePhysics s1) = rotationAngle (updatePhysics s2)
  /\ Forall2 samePhysics (balls (updatePhysics s1)) (balls (updatePhysics s2))
  /\ Forall2 (fun b1 b2 => position b1 = position b2
                           /\ velocity b1 = velocity b2)
       (balls (updatePhysics s1)) (balls (updatePhysics s2)).
Proof.
  intros Ha Hb.
  assert (H : Forall2 samePhysics (balls (updatePhysics s1))
                (balls (updatePhysics s2))).
  { unfold updatePhysics. cbv zeta. cbn [balls]. rewrite Ha.
    apply subSteps_same, Hb. }
  split; [|split].
  - unfold updatePhysics. cbv zeta. cbn [rotationAngle]. rewrite Ha.
    reflexivity.
  - exact H.
  - eapply Forall2_impl; [exact H|].
    intros b1 b2 (_ & Hp & Hv & _). split; assumption.
Qed.


(** ** Evaluating the code on numbers *)

Lemma length_of_square (v : Vector) (l : R) :
  0 <= l -> Vec.dot v v = l * l -> Vec.length v = l.
Proof.
  intros Hl Hv. unfold Vec.length, Vec.dot in *. rewrite Hv.
  apply sqrt_square, Hl.
Qed.

Lemma normalize_of_length (v : Vector) (l : R) :
  0 < l -> Vec.length v = l ->
  Vec.normalize v = Vec.mk (Vec.x v / l) (Vec.y v / l).
Proof.
  intros Hl Hv. rewrite normalize_nonzero by lra. rewrite Hv. reflexivity.
Qed.

(** [Math.atan2] straight down: [x = 0] and [y < 0]. *)
Lemma atan2_down (py px : R) : px = 0 -> py < 0 -> atan2 py px = - (PI / 2).
Proof.
  intros -> Hy. unfold atan2.
  destruct (Rlt_dec 0 0) as [H|_]; [lra|].
  destruct (Rlt_dec 0 py) as [H|_]; [lra|].
  destruct (Rlt_dec py 0) as [_|H]; [reflexivity|lra].
Qed.

(** ** Further properties of the vector helpers *)

(** X1. [normalize] of a vector other than zero has length 1. *)
Theorem normalize_has_unit_length (v : Vector) :
  v <> Vec.mk 0 0 -> Vec.length (Vec.normalize v) = 1.
Proof.
  intros Hv. apply length_of_square; [lra|].
  rewrite normalize_unit; [ring|]. rewrite length_zero_iff. exact Hv.
Qed.

(** X2. The direction times the length gives the vector back, the zero
    vector included. *)
Theorem direction_times_length (v : Vector) :
  Vec.mult (Vec.normalize v) (Vec.length v) = v
  /\ Vec.dot (Vec.normalize v) v = Vec.length v.
Proof.
  split; [apply normalize_scale|].
  pose proof (normalize_scale v) as Hs.
  pose proof (length_sqr v) as Hq.
  destruct (Req_dec_T (Vec.length v) 0) as [H|H].
  - rewrite (normalize_zero _ H), H. vec. ring.
  - rewrite (normalize_nonzero _ H). unfold Vec.dot in *. simpl.
    field_simplify_eq; [|exact H]. lra.
Qed.

Lemma length_mult (v : Vector) (s : R) :
  Vec.length (Vec.mult v s) = Rabs s * Vec.length v.
Proof.
  unfold Vec.length. vec.
  replace (Vec.x v * s * (Vec.x v * s) + Vec.y v * s * (Vec.y v * s))
    with (Rsqr s * (Vec.x v * Vec.x v + Vec.y v * Vec.y v))
    by (unfold Rsqr; ring).
  rewrite sqrt_mult; [|apply Rle_0_sqr|nra].
  rewrite sqrt_Rsqr_abs. reflexivity.
Qed.

(** X3. Normalising twice is normalising once. *)
Theorem normalize_idempotent (v : Vector) :
  Vec.normalize (Vec.normalize v) = Vec.normalize v.
Proof.
  destruct (Req_dec_T (Vec.length v) 0) as [H|H].
  - rewrite (normalize_zero _ H). apply normalize_zero, length_zero_iff.
    reflexivity.
  - assert (H1 : Vec.length (Vec.normalize v) = 1).
    { apply length_of_square; [lra|]. rewrite (normalize_unit _ H). ring. }
    rewrite (normalize_of_length (Vec.normalize v) 1) by (lra || exact H1).
    destruct (Vec.normalize v) as [a b]. simpl. f_equal; field.
Qed.

(** X4. The length is never negative, is 0 for the zero vector only, and
    scales with the absolute value of the factor of [mult]. *)
Theorem length_is_a_norm (v : Vector) (s : R) :
  0 <= Vec.length v
  /\ (Vec.length v = 0 <-> v = Vec.mk 0 0)
  /\ Vec.length (Vec.mult v s) = Rabs s * Vec.length v.
Proof.
  split; [apply sqrt_pos|]. split; [apply length_zero_iff|apply length_mult].
Qed.

(** Opposite vectors have opposite directions. *)
Lemma normalize_opp (v : Vector) :
  Vec.normalize (Vec.mult v (-1)) = Vec.mult (Vec.normalize v) (-1).
Proof.
  assert (Hl : Vec.length (Vec.mult v (-1)) = Vec.length v).
  { rewrite length_mult. replace (Rabs (-1)) with 1; [ring|].
    rewrite Rabs_left by lra. lra. }
  destruct (Req_dec_T (Vec.length v) 0) as [H|H].
  - rewrite (normalize_zero v H), normalize_zero by (rewrite Hl; exact H).
    vec. f_equal; ring.
  - rewrite (normalize_nonzero v H), normalize_nonzero by (rewrite Hl; exact H).
    rewrite Hl. vec. f_equal; field; exact H.
Qed.


(** ** The heptagon *)

Lemma vertexAt_heptagon (angle : R) (i : nat) :
  (i < HEPTAGON_SIDES)%nat ->
  vertexAt (heptagonVertices angle) i = vertex angle i.
Proof.
  intros Hi. unfold vertexAt, heptagonVertices.
  rewrite (nth_indep _ _ (vertex angle 0%nat))
    by (rewrite length_map, length_seq; exact Hi).
  rewrite map_nth, seq_nth by exact Hi. reflexivity.
Qed.

Lemma sector_nonzero : INR HEPTAGON_SIDES <> 0.
Proof. unfold HEPTAGON_SIDES. simpl. lra. Qed.

Lemma cos_sin_full_turn (t : R) :
  cos (t + 2 * PI) = cos t /\ sin (t + 2 * PI) = sin t.
Proof.
  rewrite cos_plus, sin_plus, cos_2PI, sin_2PI. split; ring.
Qed.

Lemma vertex_full_turn (angle : R) (i : nat) :
  vertex (angle + 2 * PI) i = vertex angle i.
Proof.
  unfold vertex. cbv zeta.
  replace (angle + 2 * PI + INR i * 2 * PI / INR HEPTAGON_SIDES)
    with (angle + INR i * 2 * PI / INR HEPTAGON_SIDES + 2 * PI) by ring.
  destruct (cos_sin_full_turn (angle + INR i * 2 * PI / INR HEPTAGON_SIDES))
    as [-> ->].
  reflexivity.
Qed.

Lemma vertex_next_sector (angle : R) (i : nat) :
  vertex (angle + 2 * PI / INR HEPTAGON_SIDES) i = vertex angle (S i).
Proof.
  unfold vertex. cbv zeta. rewrite S_INR.
  replace (angle + 2 * PI / INR HEPTAGON_SIDES
           + INR i * 2 * PI / INR HEPTAGON_SIDES)
    with (angle + (INR i + 1) * 2 * PI / INR HEPTAGON_SIDES)
    by (field; exact sector_nonzero).
  reflexivity.
Qed.

Lemma vertex_wraps (angle : R) :
  vertex angle HEPTAGON_SIDES = vertex angle 0.
Proof.
  rewrite <- (vertex_full_turn angle 0). unfold vertex. cbv zeta.
  replace (angle + INR HEPTAGON_SIDES * 2 * PI / INR HEPTAGON_SIDES)
    with (angle + 2 * PI + INR 0 * 2 * PI / INR HEPTAGON_SIDES)
    by (simpl (INR 0); field; exact sector_nonzero).
  reflexivity.
Qed.

(** X5. The polygon has [HEPTAGON_SIDES] vertices, all on the circle of radius
    [heptagonRadius] (in absolute value) about the centre. *)
Theorem heptagon_vertices_on_circle (angle : R) :
  List.length (heptagonVertices angle) = HEPTAGON_SIDES
  /\ (forall i : nat,
        (i < HEPTAGON_SIDES)%nat ->
        Vec.length (Vec.sub (vertexAt (heptagonVertices angle) i) center)
        = Rabs heptagonRadius).
Proof.
  split.
  - unfold heptagonVertices. rewrite length_map, length_seq. reflexivity.
  - intros i Hi. rewrite (vertexAt_heptagon _ _ Hi).
    apply length_of_square; [apply Rabs_pos|].
    unfold vertex, center. cbv zeta.
    generalize (angle + INR i * 2 * PI / INR HEPTAGON_SIDES). intros t. vec.
    pose proof (sin2_cos2 t) as H. unfold Rsqr in H.
    replace (Rabs heptagonRadius * Rabs heptagonRadius)
      with (heptagonRadius * heptagonRadius)
      by (rewrite <- Rabs_mult; symmetry; apply Rabs_pos_eq; nra).
    transitivity (heptagonRadius * heptagonRadius
                  * (sin t * sin t + cos t * cos t)); [ring|].
    rewrite H. ring.
Qed.

(** X6. A full turn of the angle gives the same list of vertices, and a turn
    by one sector ([2 PI / HEPTAGON_SIDES]) gives the same vertices with
    the first one moved to the end. *)
Theorem heptagon_turns (angle : R) :
  heptagonVertices (angle + 2 * PI) = heptagonVertices angle
  /\ heptagonVertices (angle + 2 * PI / INR HEPTAGON_SIDES)
     = drop 1 (heptagonVertices angle) ++ take 1 (heptagonVertices angle).
Proof.
  split.
  - unfold heptagonVertices. apply map_ext. apply vertex_full_turn.
  - unfold heptagonVertices. simpl.
    rewrite !vertex_next_sector.
    change 7%nat with HEPTAGON_SIDES. rewrite vertex_wraps. reflexivity.
Qed.

Lemma chord_sqr (angle : R) (i j : nat) :
  Vec.dot (Vec.sub (vertex angle j) (vertex angle i))
          (Vec.sub (vertex angle j) (vertex angle i))
  = 2 * (heptagonRadius * heptagonRadius)
    * (1 - cos ((INR j - INR i) * 2 * PI / INR HEPTAGON_SIDES)).
Proof.
  unfold vertex. cbv zeta.
  replace ((INR j - INR i) * 2 * PI / INR HEPTAGON_SIDES)
    with ((angle + INR j * 2 * PI / INR HEPTAGON_SIDES)
          - (angle + INR i * 2 * PI / INR HEPTAGON_SIDES))
    by (field; exact sector_nonzero).
  generalize (angle + INR j * 2 * PI / INR HEPTAGON_SIDES).
  generalize (angle + INR i * 2 * PI / INR HEPTAGON_SIDES).
  intros a b. rewrite cos_minus. vec.
  pose proof (sin2_cos2 a) as Ha. pose proof (sin2_cos2 b) as Hb.
  unfold Rsqr in *.
  transitivity (heptagonRadius * heptagonRadius
                * ((sin a * sin a + cos a * cos a)
                   + (sin b * sin b + cos b * cos b)
                   - 2 * (cos b * cos a + sin b * sin a))); [ring|].
  rewrite Ha, Hb. ring.
Qed.

Lemma cos_last_sector :
  cos ((INR 0 - INR 6) * 2 * PI / INR HEPTAGON_SIDES)
  = cos (2 * PI / INR HEPTAGON_SIDES).
Proof.
  destruct (cos_sin_full_turn ((INR 0 - INR 6) * 2 * PI / INR HEPTAGON_SIDES))
    as [<- _].
  f_equal. unfold HEPTAGON_SIDES. simpl. field.
Qed.

Lemma edge_sqr (angle : R) (i : nat) :
  (i < HEPTAGON_SIDES)%nat ->
  Vec.dot (edgeVec (heptagonVertices angle) i)
          (edgeVec (heptagonVertices angle) i)
  = 2 * (heptagonRadius * heptagonRadius)
    * (1 - cos (2 * PI / INR HEPTAGON_SIDES)).
Proof.
  intros Hi. unfold edgeVec.
  rewrite (vertexAt_heptagon angle i Hi).
  rewrite vertexAt_heptagon by (apply Nat.mod_upper_bound; discriminate).
  rewrite chord_sqr.
  unfold HEPTAGON_SIDES in Hi.
  destruct (Nat.eq_dec i 6) as [->|Hne].
  - change ((6 + 1) mod HEPTAGON_SIDES)%nat with 0%nat.
    rewrite cos_last_sector. reflexivity.
  - rewrite Nat.mod_small by (unfold HEPTAGON_SIDES; lia).
    rewrite Nat.add_1_r, S_INR. do 3 f_equal. field. exact sector_nonzero.
Qed.

(** X7. The polygon is equilateral: its [HEPTAGON_SIDES] edges, the closing
    edge from the last vertex to the first included, have the same
    length, whose square is [2 R^2 (1 - cos (2 PI / HEPTAGON_SIDES))]. *)
Theorem heptagon_edges_equal (angle : R) (i j : nat) :
  (i < HEPTAGON_SIDES)%nat ->
  (j < HEPTAGON_SIDES)%nat ->
  Vec.length (edgeVec (heptagonVertices angle) i)
  = Vec.length (edgeVec (heptagonVertices angle) j)
  /\ Vec.length (edgeVec (heptagonVertices angle) i)
     * Vec.length (edgeVec (heptagonVertices angle) i)
     = 2 * (heptagonRadius * heptagonRadius)
       * (1 - cos (2 * PI / INR HEPTAGON_SIDES)).
Proof.
  intros Hi Hj. split.
  - unfold Vec.length.
    pose proof (edge_sqr angle i Hi) as Ei.
    pose proof (edge_sqr angle j Hj) as Ej.
    unfold Vec.dot in Ei, Ej. rewrite Ei, Ej. reflexivity.
  - rewrite length_sqr. apply edge_sqr, Hi.
Qed.


(** ** Further properties of the wall code *)

Lemma normalize_perp (w : Vector) :
  - Vec.y (Vec.normalize w) * Vec.x w + Vec.x (Vec.normalize w) * Vec.y w = 0.
Proof.
  destruct (Req_dec_T (Vec.length w) 0) as [H|H].
  - rewrite (normalize_zero _ H). simpl. ring.
  - rewrite (normalize_nonzero _ H). simpl. field. exact H.
Qed.

Lemma wallNormal_perp (p1 p2 : Vector) :
  Vec.dot (wallNormal p1 p2) (Vec.sub p2 p1) = 0.
Proof.
  pose proof (normalize_perp (Vec.sub p2 p1)) as H.
  unfold wallNormal. cbv zeta.
  revert H. generalize (Vec.normalize (Vec.sub p2 p1)). intros u H.
  destruct (Rlt_dec _ 0); unfold Vec.dot in *; simpl in *; lra.
Qed.

Lemma wallNormal_inward (p1 p2 : Vector) :
  0 <= Vec.dot (wallNormal p1 p2)
         (Vec.sub center (Vec.mult (Vec.add p1 p2) 0.5)).
Proof.
  unfold wallNormal. cbv zeta.
  generalize (Vec.normalize (Vec.sub p2 p1)). intros u.
  generalize (Vec.sub center (Vec.mult (Vec.add p1 p2) 0.5)). intros c.
  destruct (Rlt_dec _ 0) as [H|H]; unfold Vec.dot in *; simpl in *; lra.
Qed.

(** X8. The normal that the wall code uses is perpendicular to the wall and
    does not point away from the centre of the heptagon (seen from the
    midpoint of the wall); so the centre itself is never on the outer side
    of the line of a wall. *)
Theorem wall_normal_points_inward (p1 p2 : Vector) :
  Vec.dot (wallNormal p1 p2) (Vec.sub p2 p1) = 0
  /\ 0 <= Vec.dot (wallNormal p1 p2)
            (Vec.sub center (Vec.mult (Vec.add p1 p2) 0.5))
  /\ (forall ball : Ball, position ball = center -> 0 <= wallDist p1 p2 ball).
Proof.
  split; [apply wallNormal_perp|]. split; [apply wallNormal_inward|].
  intros ball Hb. unfold wallDist. cbv zeta. rewrite Hb.
  pose proof (wallNormal_perp p1 p2) as Hp.
  pose proof (wallNormal_inward p1 p2) as Hi.
  revert Hp Hi. generalize (wallNormal p1 p2). intros n.
  destruct p1 as [a1 b1], p2 as [a2 b2]. unfold center. vec. lra.
Qed.

(** *** The wall velocity *)

Lemma sqrt_one_plus_ratio (py px : R) :
  px <> 0 ->
  sqrt (1 + (py / px)²) = sqrt (px * px + py * py) / Rabs px.
Proof.
  intros Hx.
  assert (Ha : 0 < Rabs px) by (apply Rabs_pos_lt, Hx).
  assert (Hr : 0 <= sqrt (px * px + py * py)) by apply sqrt_pos.
  assert (Hq : sqrt (px * px + py * py) * sqrt (px * px + py * py)
               = px * px + py * py) by (apply sqrt_sqrt; nra).
  assert (Hp : Rabs px * Rabs px = px * px)
    by (rewrite <- Rabs_mult; apply Rabs_pos_eq; nra).
  apply sqrt_lem_1.
  - unfold Rsqr. assert (0 <= py / px * (py / px)) by nra. lra.
  - apply Rmult_le_pos; [exact Hr|]. left. apply Rinv_0_lt_compat, Ha.
  - unfold Rsqr. field_simplify_eq; [|split; [exact Hx|lra]].
    revert Hq Hp. generalize (sqrt (px * px + py * py)) (Rabs px).
    intros s a Hq Hp.
    replace (s ^ 2) with (s * s) by ring. replace (a ^ 2) with (a * a) by ring.
    rewrite Hq, Hp. ring.
Qed.

Lemma cos_sin_atan_pos (py px : R) :
  0 < px ->
  cos (atan (py / px)) = px / sqrt (px * px + py * py)
  /\ sin (atan (py / px)) = py / sqrt (px * px + py * py).
Proof.
  intros Hx.
  assert (Hr : 0 < sqrt (px * px + py * py)) by (apply sqrt_lt_R0; nra).
  rewrite cos_atan, sin_atan, sqrt_one_plus_ratio by lra.
  rewrite Rabs_pos_eq by lra. split; field; lra.
Qed.

Lemma cos_sin_atan_neg (py px : R) :
  px < 0 ->
  cos (atan (py / px)) = - px / sqrt (px * px + py * py)
  /\ sin (atan (py / px)) = - py / sqrt (px * px + py * py).
Proof.
  intros Hx.
  assert (Hr : 0 < sqrt (px * px + py * py)) by (apply sqrt_lt_R0; nra).
  rewrite cos_atan, sin_atan, sqrt_one_plus_ratio by lra.
  rewrite Rabs_left by lra. split; field; lra.
Qed.

(** [Math.atan2] gives the angle of its point: cosine and sine of it are
    the coordinates divided by the distance from the origin. *)
Lemma cos_sin_atan2 (py px : R) :
  sqrt (px * px + py * py) <> 0 ->
  cos (atan2 py px) = px / sqrt (px * px + py * py)
  /\ sin (atan2 py px) = py / sqrt (px * px + py * py).
Proof.
  intros Hr. unfold atan2.
  destruct (Rlt_dec 0 px) as [Hx|Hx]; [apply cos_sin_atan_pos, Hx|].
  destruct (Rlt_dec px 0) as [Hx'|Hx'].
  - destruct (cos_sin_atan_neg py px Hx') as [Hc Hs].
    destruct (Rle_dec 0 py).
    + rewrite neg_cos, neg_sin, Hc, Hs. split; field; exact Hr.
    + unfold Rminus. rewrite cos_plus, sin_plus, cos_neg, sin_neg.
      rewrite cos_PI, sin_PI, Hc, Hs. split; field; exact Hr.
  - assert (E : px = 0) by lra. subst px.
    assert (Hq : sqrt (0 * 0 + py * py) = Rabs py).
    { replace (0 * 0 + py * py) with (Rsqr py) by (unfold Rsqr; ring).
      apply sqrt_Rsqr_abs. }
    rewrite Hq in *.
    destruct (Rlt_dec 0 py) as [Hy|Hy].
    + rewrite cos_PI2, sin_PI2, Rabs_pos_eq by lra. split; field; lra.
    + destruct (Rlt_dec py 0) as [Hy'|Hy'].
      * rewrite cos_neg, sin_neg, cos_PI2, sin_PI2, Rabs_left by lra.
        split; field; lra.
      * exfalso. assert (py = 0) by lra. subst py.
        rewrite Rabs_R0 in Hr. lra.
Qed.

(** X10. The velocity that the code gives the wall at the place of a ball is
    that of a rigid rotation about the centre of the heptagon, at
    [12 * ROTATION_SPEED] per time unit: the vector from the centre to the
    ball turned by a quarter turn and scaled.  It is the zero vector at the
    centre and perpendicular to the vector from the centre everywhere. *)
Theorem wallV_is_rigid_rotation (ball : Ball) :
  wallV ball
  = Vec.mk (- (12 * ROTATION_SPEED) * (ball_y ball - centerY))
           (12 * ROTATION_SPEED * (ball_x ball - centerX))
  /\ Vec.dot (wallV ball) (Vec.sub (position ball) center) = 0
  /\ Vec.length (wallV ball)
     = 12 * ROTATION_SPEED * Vec.length (Vec.sub (position ball) center).
Proof.
  assert (E : wallV ball
    = Vec.mk (- (12 * ROTATION_SPEED) * (ball_y ball - centerY))
             (12 * ROTATION_SPEED * (ball_x ball - centerX))).
  { unfold wallV. cbv zeta.
    unfold Vec.length, Vec.sub, position, center. simpl.
    set (dx := ball_x ball - centerX). set (dy := ball_y ball - centerY).
    destruct (Req_dec_T (sqrt (dx * dx + dy * dy)) 0) as [H|H].
    - rewrite H. apply sqrt_eq_0 in H; [|nra].
      destruct (sumsq_zero _ _ H) as [-> ->]. f_equal; ring.
    - destruct (cos_sin_atan2 dy dx H) as [-> ->].
      clearbody dx dy. revert H. generalize (sqrt (dx * dx + dy * dy)).
      intros r H. replace 0.2 with (2 / 10) by lra.
      f_equal; field; exact H. }
  split; [exact E|]. split.
  - rewrite E. unfold position, center. vec. ring.
  - rewrite E.
    replace (Vec.mk (- (12 * ROTATION_SPEED) * (ball_y ball - centerY))
                    (12 * ROTATION_SPEED * (ball_x ball - centerX)))
      with (Vec.mult (Vec.mk (- (ball_y ball - centerY))
                             (ball_x ball - centerX))
                     (12 * ROTATION_SPEED))
      by (vec; f_equal; ring).
    rewrite length_mult, Rabs_pos_eq by (unfold ROTATION_SPEED; lra).
    f_equal. unfold Vec.length, position, center. vec. f_equal. ring.
Qed.


(** *** What a wall contact does to a ball *)

Lemma reflect_relVel (n : Vector) (ball : Ball) :
  Vec.dot (wallRelVel ball) n < 0 ->
  wallRelVel (reflect n ball)
  = Vec.add (wallRelVel ball)
      (Vec.mult n (- (1 + WALL_BOUNCE) * Vec.dot (wallRelVel ball) n)).
Proof.
  intros Hneg.
  assert (Hw : wallV (reflect n ball) = wallV ball)
    by (apply wallV_position, reflect_position).
  unfold wallRelVel at 1. rewrite Hw.
  unfold reflect. cbv zeta.
  destruct (Rlt_dec _ 0) as [_|Hn]; [|contradiction].
  generalize (wallRelVel ball) (wallV ball). intros r w.
  unfold velocity, setVelocity. vec. f_equal; ring.
Qed.

Lemma reflect_inert (n : Vector) (ball : Ball) :
  ~ Vec.dot (wallRelVel ball) n < 0 -> reflect n ball = ball.
Proof.
  intros H. unfold reflect. cbv zeta.
  destruct (Rlt_dec _ 0); [contradiction|reflexivity].
Qed.

Lemma pushOut_zero_normal (ov : R) (ball : Ball) :
  pushOut (Vec.mk 0 0) ov ball = ball.
Proof. destruct ball. unfold pushOut, setPosition. simpl. f_equal; ring. Qed.

(** On a wall of length zero the wall code changes nothing. *)
Lemma wallCollide_degenerate (p1 p2 : Vector) (ball : Ball) :
  Vec.length (Vec.sub p2 p1) = 0 -> wallCollide p1 p2 ball = ball.
Proof.
  intros He. unfold wallCollide. cbv zeta.
  rewrite (wallNormal_degenerate _ _ He).
  destruct (Rlt_dec _ _); [|reflexivity].
  rewrite pushOut_zero_normal. apply reflect_inert. vec. lra.
Qed.

Lemma wallCollide_identity (p1 p2 : Vector) (ball : Ball) :
  identity (wallCollide p1 p2 ball) = identity ball.
Proof.
  unfold wallCollide, reflect. cbv zeta.
  destruct (Rlt_dec _ _); [|reflexivity].
  destruct (Rlt_dec _ 0); reflexivity.
Qed.

(** X11. After a wall has handled a contact, the ball does not move into that
    wall any more, relative to the wall velocity: either it was not doing
    so, or the impulse has reversed the normal component. *)
Theorem wall_contact_stops_approach (p1 p2 : Vector) (ball : Ball) :
  wallDist p1 p2 ball < radius ball ->
  0 <= Vec.dot (wallRelVel (wallCollide p1 p2 ball)) (wallNormal p1 p2).
Proof.
  intros Hc. rewrite (wallCollide_contact _ _ _ Hc).
  destruct (Rlt_dec (Vec.dot (wallRelVel (pushedOut p1 p2 ball))
                             (wallNormal p1 p2)) 0) as [Hneg|Hpos].
  - rewrite (reflect_normal_speed _ _ Hneg).
    + unfold WALL_BOUNCE. nra.
    + apply wallNormal_unit_of_dot
        with (v := wallRelVel (pushedOut p1 p2 ball)). lra.
  - rewrite (reflect_inert _ _ Hpos). lra.
Qed.

(** X12. Handling the same wall a second time changes nothing: after the first
    time the ball is at distance [radius] from the line (or the wall has
    length zero and nothing has happened at all). *)
Theorem wallCollide_idempotent (p1 p2 : Vector) (ball : Ball) :
  wallCollide p1 p2 (wallCollide p1 p2 ball) = wallCollide p1 p2 ball.
Proof.
  destruct (Req_dec_T (Vec.length (Vec.sub p2 p1)) 0) as [He|He].
  - rewrite !(wallCollide_degenerate _ _ _ He). reflexivity.
  - destruct (Rlt_dec (wallDist p1 p2 ball) (radius ball)) as [Hc|Hc].
    + pose proof (wallDist_corrected _ _ _ He Hc) as Hd.
      assert (Hr : radius (wallCollide p1 p2 ball) = radius ball).
      { pose proof (wallCollide_identity p1 p2 ball) as Hi.
        unfold identity in Hi. congruence. }
      set (b1 := wallCollide p1 p2 ball) in *.
      unfold wallCollide at 1. cbv zeta.
      destruct (Rlt_dec _ _) as [H|_]; [lra|reflexivity].
    + assert (E : wallCollide p1 p2 ball = ball).
      { unfold wallCollide. cbv zeta.
        destruct (Rlt_dec _ _); [contradiction|reflexivity]. }
      rewrite !E. reflexivity.
Qed.

(** X13. The wall impulse acts along the normal only: in a contact the
    component of the relative velocity along the wall ([tangent] in the
    source) is kept, and the relative speed does not grow. *)
Theorem wall_bounce_is_frictionless (p1 p2 : Vector) (ball : Ball) :
  wallDist p1 p2 ball < radius ball ->
  Vec.dot (wallRelVel (wallCollide p1 p2 ball))
          (Vec.mk (- Vec.y (wallNormal p1 p2)) (Vec.x (wallNormal p1 p2)))
  = Vec.dot (wallRelVel (pushedOut p1 p2 ball))
            (Vec.mk (- Vec.y (wallNormal p1 p2)) (Vec.x (wallNormal p1 p2)))
  /\ Vec.dot (wallRelVel (wallCollide p1 p2 ball))
             (wallRelVel (wallCollide p1 p2 ball))
     <= Vec.dot (wallRelVel (pushedOut p1 p2 ball))
                (wallRelVel (pushedOut p1 p2 ball)).
Proof.
  intros Hc. rewrite (wallCollide_contact _ _ _ Hc).
  destruct (Rlt_dec (Vec.dot (wallRelVel (pushedOut p1 p2 ball))
                             (wallNormal p1 p2)) 0) as [Hneg|Hpos].
  - rewrite (reflect_relVel _ _ Hneg).
    assert (Hu : Vec.dot (wallNormal p1 p2) (wallNormal p1 p2) = 1).
    { apply wallNormal_unit_of_dot
        with (v := wallRelVel (pushedOut p1 p2 ball)). lra. }
    revert Hneg Hu.
    generalize (wallRelVel (pushedOut p1 p2 ball)) (wallNormal p1 p2).
    intros r n Hneg Hu. unfold WALL_BOUNCE, Vec.dot in *. vec.
    set (q := Vec.x r * Vec.x n + Vec.y r * Vec.y n) in *.
    set (u := Vec.x n * Vec.x n + Vec.y n * Vec.y n) in *.
    split; [ring|].
    assert (E : (Vec.x r + Vec.x n * (- (1 + 0.7) * q))
                * (Vec.x r + Vec.x n * (- (1 + 0.7) * q))
                + (Vec.y r + Vec.y n * (- (1 + 0.7) * q))
                  * (Vec.y r + Vec.y n * (- (1 + 0.7) * q))
                = Vec.x r * Vec.x r + Vec.y r * Vec.y r
                  - 2 * (1 + 0.7) * q * q + (1 + 0.7) * (1 + 0.7) * q * q * u)
      by (subst q u; ring).
    rewrite E, Hu. nra.
  - rewrite (reflect_inert _ _ Hpos). split; [reflexivity|lra].
Qed.


(** ** Further properties of the pair code *)

(** Whatever branch is taken, a pair keeps the sum of its positions and
    the sum of its velocities. *)
Lemma collide_sums (ball other : Ball) :
  Vec.add (position (fst (collide ball other)))
          (position (snd (collide ball other)))
  = Vec.add (position ball) (position other)
  /\ Vec.add (velocity (fst (collide ball other)))
             (velocity (snd (collide ball other)))
     = Vec.add (velocity ball) (velocity other).
Proof.
  destruct (Rlt_dec (Vec.length (distVec ball other)) (minDist ball other))
    as [Hc|Hc].
  - rewrite (collide_contact _ _ Hc).
    assert (Hs : Vec.add (position (fst (separate ball other)))
                         (position (snd (separate ball other)))
                 = Vec.add (position ball) (position other)).
    { unfold separate, position, setPosition. vec. f_equal; ring. }
    destruct (Rgt_dec _ 0).
    + split; [exact Hs|reflexivity].
    + split; [exact Hs|]. rewrite exchange_sum. reflexivity.
  - rewrite (collide_no_contact _ _ Hc). split; reflexivity.
Qed.

Lemma collide_identity (ball other : Ball) :
  identity (fst (collide ball other)) = identity ball
  /\ identity (snd (collide ball other)) = identity other.
Proof.
  unfold collide. cbv zeta.
  destruct (Rlt_dec _ _); [|split; reflexivity].
  unfold separate. cbv zeta.
  destruct (Rgt_dec _ 0); split; reflexivity.
Qed.

(** X14. The position correction of a pair is symmetric: the midpoint of the
    two centres stays where it was, in every case. *)
Theorem pair_keeps_midpoint (ball other : Ball) :
  Vec.mult (Vec.add (position (fst (collide ball other)))
                    (position (snd (collide ball other)))) 0.5
  = Vec.mult (Vec.add (position ball) (position other)) 0.5.
Proof. destruct (collide_sums ball other) as [-> _]. reflexivity. Qed.

Lemma exchange_energy (n : Vector) (b o : Ball) :
  Vec.dot n n = 1 \/ Vec.dot (relVel b o) n = 0 ->
  speedSquared (fst (exchange n (Vec.dot (relVel b o) n) b o))
  + speedSquared (snd (exchange n (Vec.dot (relVel b o) n) b o))
  = speedSquared b + speedSquared o
    - (1 - restitution * restitution) / 2
      * (Vec.dot (relVel b o) n * Vec.dot (relVel b o) n).
Proof.
  intros H. unfold exchange, speedSquared, relVel, velocity, restitution in *.
  revert H. vec. intros H.
  set (q := (vx b - vx o) * Vec.x n + (vy b - vy o) * Vec.y n) in *.
  set (u := Vec.x n * Vec.x n + Vec.y n * Vec.y n) in *.
  transitivity (vx b * vx b + vy b * vy b + (vx o * vx o + vy o * vy o)
                - (1 + 0.8) * q * q + (1 + 0.8) * (1 + 0.8) / 2 * q * q * u).
  - subst q u. field.
  - destruct H as [H|H]; rewrite H; lra.
Qed.

(** X15. A pair never gains kinetic energy: the sum of the squared speeds of the
    two balls does not grow, and when the velocity exchange runs it drops
    by [(1 - restitution^2) / 2] times the square of [vn]. *)
Theorem pair_energy_not_increased (ball other : Ball) :
  speedSquared (fst (collide ball other))
  + speedSquared (snd (collide ball other))
  <= speedSquared ball + speedSquared other
  /\ (Vec.length (distVec ball other) < minDist ball other ->
      ~ normalSpeed ball other > 0 ->
      speedSquared (fst (collide ball other))
      + speedSquared (snd (collide ball other))
      = speedSquared ball + speedSquared other
        - (1 - restitution * restitution) / 2
          * (normalSpeed ball other * normalSpeed ball other)).
Proof.
  assert (Hex : speedSquared
                  (fst (exchange (contactNormal ball other)
                          (normalSpeed ball other)
                          (fst (separate ball other))
                          (snd (separate ball other))))
                + speedSquared
                    (snd (exchange (contactNormal ball other)
                            (normalSpeed ball other)
                            (fst (separate ball other))
                            (snd (separate ball other))))
                = speedSquared ball + speedSquared other
                  - (1 - restitution * restitution) / 2
                    * (normalSpeed ball other * normalSpeed ball other)).
  { unfold normalSpeed.
    change (relVel ball other)
      with (relVel (fst (separate ball other)) (snd (separate ball other))).
    rewrite exchange_energy; [reflexivity|].
    destruct (contactNormal_unit_or_zero ball other) as [H|H];
      [left; exact H|right]. rewrite H. vec. ring. }
  split.
  - destruct (Rlt_dec (Vec.length (distVec ball other)) (minDist ball other))
      as [Hc|Hc].
    + rewrite (collide_contact _ _ Hc).
      destruct (Rgt_dec _ 0); [apply Rle_refl|].
      rewrite Hex. unfold restitution.
      assert (0 <= normalSpeed ball other * normalSpeed ball other) by nra.
      nra.
    + rewrite (collide_no_contact _ _ Hc). apply Rle_refl.
  - intros Hc Hvn. rewrite (collide_contact _ _ Hc).
    destruct (Rgt_dec _ 0); [contradiction|]. exact Hex.
Qed.

Lemma distVec_swap (ball other : Ball) :
  distVec other ball = Vec.mult (distVec ball other) (-1).
Proof. unfold distVec, position. vec. f_equal; ring. Qed.

Lemma collide_swap (ball other : Ball) :
  collide other ball
  = (snd (collide ball other), fst (collide ball other)).
Proof.
  assert (Hl : Vec.length (distVec other ball)
               = Vec.length (distVec ball other)).
  { rewrite distVec_swap, length_mult. replace (Rabs (-1)) with 1; [ring|].
    rewrite Rabs_left by lra. lra. }
  assert (Hm : minDist other ball = minDist ball other)
    by (unfold minDist; ring).
  assert (Hn : contactNormal other ball
               = Vec.mult (contactNormal ball other) (-1)).
  { unfold contactNormal. rewrite distVec_swap. apply normalize_opp. }
  assert (Hv : normalSpeed other ball = normalSpeed ball other).
  { unfold normalSpeed. rewrite Hn. unfold relVel, velocity. vec. ring. }
  destruct (Rlt_dec (Vec.length (distVec ball other)) (minDist ball other))
    as [Hc|Hc].
  - rewrite (collide_contact ball other Hc).
    rewrite collide_contact by (rewrite Hl, Hm; exact Hc).
    rewrite Hv, Hn. unfold separate. cbv zeta. rewrite Hn, Hl, Hm.
    generalize (contactNormal ball other) (Vec.length (distVec ball other))
               (normalSpeed ball other).
    intros n d vn. destruct ball, other.
    destruct (Rgt_dec vn 0); unfold exchange, setVelocity, setPosition; vec;
      f_equal; f_equal; ring.
  - rewrite (collide_no_contact ball other Hc).
    rewrite collide_no_contact by (rewrite Hl, Hm; exact Hc). reflexivity.
Qed.


(** X16. Handling the pair from the other ball gives the same two balls: the
    outcome of one pair does not depend on which of the two is [ball] and
    which is [other]. *)
Theorem collide_symmetric (ball other : Ball) :
  collide other ball
  = (snd (collide ball other), fst (collide ball other)).
Proof. apply collide_swap. Qed.

Lemma collide_coincident (ball other : Ball) :
  position other = position ball -> collide ball other = (ball, other).
Proof.
  intros Hp.
  destruct (Rlt_dec (Vec.length (distVec ball other)) (minDist ball other))
    as [Hc|Hc]; [|apply collide_no_contact, Hc].
  assert (Hn : contactNormal ball other = Vec.mk 0 0).
  { unfold contactNormal. apply normalize_zero, length_zero_iff.
    unfold distVec. rewrite Hp. vec. f_equal; ring. }
  rewrite (collide_contact _ _ Hc), (separate_coincident _ _ Hp).
  simpl. rewrite Hn, exchange_coincident.
  destruct (Rgt_dec _ 0); reflexivity.
Qed.

Lemma collide_again (ball other : Ball) :
  collide (fst (collide ball other)) (snd (collide ball other))
  = collide ball other.
Proof.
  destruct (Rlt_dec (Vec.length (distVec ball other)) (minDist ball other))
    as [Hc|Hc].
  - destruct (Req_dec_T (Vec.length (distVec ball other)) 0) as [H0|H0].
    + assert (Hp : position other = position ball).
      { apply length_zero_iff in H0. unfold distVec in H0.
        destruct (position other) as [a b], (position ball) as [c d].
        revert H0. vec. intros [= H1 H2]. f_equal; lra. }
      rewrite (collide_coincident _ _ Hp). simpl.
      apply (collide_coincident _ _ Hp).
    + assert (Hpos : 0 < Vec.length (distVec ball other)).
      { pose proof (sqrt_pos (Vec.x (distVec ball other)
                              * Vec.x (distVec ball other)
                              + Vec.y (distVec ball other)
                                * Vec.y (distVec ball other))) as Hs.
        unfold Vec.length in *. lra. }
      pose proof (centerDist_corrected _ _ Hpos Hc) as Hd.
      destruct (collide_identity ball other) as [Hb Ho].
      assert (Hm : minDist (fst (collide ball other)) (snd (collide ball other))
                   = minDist ball other).
      { unfold identity in Hb, Ho. unfold minDist.
        injection Hb as _ -> _ _. injection Ho as _ -> _ _. reflexivity. }
      rewrite collide_no_contact by (rewrite Hd, Hm; lra).
      destruct (collide ball other); reflexivity.
  - rewrite (collide_no_contact _ _ Hc). simpl.
    apply collide_no_contact, Hc.
Qed.

(** X17. Every pair is visited twice in a sub-step, once from each ball.  When
    nothing has touched the two balls in between, the second visit changes
    nothing: after the first one the centres are [r1 + r2] apart, or the
    pair was one that the code leaves alone. *)
Theorem pair_second_visit_is_noop (ball other : Ball) :
  collide (snd (collide ball other)) (fst (collide ball other))
  = (snd (collide ball other), fst (collide ball other))
  /\ collide (fst (collide ball other)) (snd (collide ball other))
     = (fst (collide ball other), snd (collide ball other)).
Proof.
  pose proof (collide_again ball other) as H.
  split.
  - rewrite collide_swap, H. reflexivity.
  - rewrite H. destruct (collide ball other); reflexivity.
Qed.

(** ** The centre of the heptagon and its walls *)

Lemma perpendicular_parallel (n c w : Vector) :
  Vec.dot n w = 0 -> Vec.dot c w = 0 -> Vec.dot w w <> 0 ->
  Vec.x n * Vec.y c - Vec.y n * Vec.x c = 0.
Proof.
  unfold Vec.dot. intros Hn Hc Hw.
  set (k := Vec.x n * Vec.y c - Vec.y n * Vec.x c).
  assert (H1 : Vec.x w * k = 0).
  { replace (Vec.x w * k)
      with (Vec.y c * (Vec.x n * Vec.x w + Vec.y n * Vec.y w)
            - Vec.y n * (Vec.x c * Vec.x w + Vec.y c * Vec.y w))
      by (subst k; ring).
    rewrite Hn, Hc. ring. }
  assert (H2 : Vec.y w * k = 0).
  { replace (Vec.y w * k)
      with (Vec.x n * (Vec.x c * Vec.x w + Vec.y c * Vec.y w)
            - Vec.x c * (Vec.x n * Vec.x w + Vec.y n * Vec.y w))
      by (subst k; ring).
    rewrite Hn, Hc. ring. }
  destruct (Req_dec_T k 0) as [E|E]; [exact E|].
  exfalso. apply Hw.
  apply Rmult_integral in H1. apply Rmult_integral in H2.
  destruct H1 as [H1|H1]; [|contradiction].
  destruct H2 as [H2|H2]; [|contradiction].
  rewrite H1, H2. ring.
Qed.

Lemma cos_half_sector_pos : 0 < cos (PI / INR HEPTAGON_SIDES).
Proof.
  pose proof PI_RGT_0. apply cos_gt_0; unfold HEPTAGON_SIDES; simpl; lra.
Qed.

Lemma cos_sector_double :
  cos (2 * PI / INR HEPTAGON_SIDES)
  = 2 * (cos (PI / INR HEPTAGON_SIDES) * cos (PI / INR HEPTAGON_SIDES)) - 1.
Proof.
  replace (2 * PI / INR HEPTAGON_SIDES) with (2 * (PI / INR HEPTAGON_SIDES))
    by (field; exact sector_nonzero).
  rewrite cos_2a_cos. ring.
Qed.

(** The square of the distance from the centre to the midpoint of an
    edge. *)
Lemma apothem_sqr (angle : R) (i : nat) :
  (i < HEPTAGON_SIDES)%nat ->
  Vec.dot
    (Vec.sub center
       (Vec.mult (Vec.add (vertexAt (heptagonVertices angle) i)
                    (vertexAt (heptagonVertices angle)
                       ((i + 1) mod HEPTAGON_SIDES))) 0.5))
    (Vec.sub center
       (Vec.mult (Vec.add (vertexAt (heptagonVertices angle) i)
                    (vertexAt (heptagonVertices angle)
                       ((i + 1) mod HEPTAGON_SIDES))) 0.5))
  = heptagonRadius * heptagonRadius
    * (cos (PI / INR HEPTAGON_SIDES) * cos (PI / INR HEPTAGON_SIDES)).
Proof.
  intros Hi.
  pose proof (edge_sqr angle i Hi) as He. unfold edgeVec in He.
  assert (Hj : ((i + 1) mod HEPTAGON_SIDES < HEPTAGON_SIDES)%nat)
    by (apply Nat.mod_upper_bound; discriminate).
  rewrite cos_sector_double in He. revert He.
  rewrite (vertexAt_heptagon angle i Hi), (vertexAt_heptagon angle _ Hj).
  unfold vertex, center. cbv zeta.
  generalize (angle + INR i * 2 * PI / INR HEPTAGON_SIDES).
  generalize (angle + INR ((i + 1) mod HEPTAGON_SIDES) * 2 * PI
                      / INR HEPTAGON_SIDES).
  intros b a. generalize (cos (PI / INR HEPTAGON_SIDES)). intros h.
  pose proof (sin2_cos2 a) as Ha. pose proof (sin2_cos2 b) as Hb.
  unfold Rsqr in *. vec.
  generalize dependent (cos a). generalize dependent (sin a).
  generalize dependent (cos b). generalize dependent (sin b).
  intros sb cb Hb sa ca Ha He. nra.
Qed.


Lemma midpoint_perp_edge (angle : R) (i : nat) :
  (i < HEPTAGON_SIDES)%nat ->
  Vec.dot
    (Vec.sub center
       (Vec.mult (Vec.add (vertexAt (heptagonVertices angle) i)
                    (vertexAt (heptagonVertices angle)
                       ((i + 1) mod HEPTAGON_SIDES))) 0.5))
    (edgeVec (heptagonVertices angle) i) = 0.
Proof.
  intros Hi.
  assert (Hj : ((i + 1) mod HEPTAGON_SIDES < HEPTAGON_SIDES)%nat)
    by (apply Nat.mod_upper_bound; discriminate).
  unfold edgeVec.
  rewrite (vertexAt_heptagon angle i Hi), (vertexAt_heptagon angle _ Hj).
  unfold vertex, center. cbv zeta.
  generalize (angle + INR i * 2 * PI / INR HEPTAGON_SIDES).
  generalize (angle + INR ((i + 1) mod HEPTAGON_SIDES) * 2 * PI
                      / INR HEPTAGON_SIDES).
  intros b a.
  pose proof (sin2_cos2 a) as Ha. pose proof (sin2_cos2 b) as Hb.
  unfold Rsqr in *. vec.
  generalize dependent (cos a). generalize dependent (sin a).
  generalize dependent (cos b). generalize dependent (sin b).
  intros sb cb Hb sa ca Ha.
  replace (0.5) with (1 / 2) by lra.
  transitivity (heptagonRadius * heptagonRadius / 2
                * ((sa * sa + ca * ca) - (sb * sb + cb * cb))); [field|].
  rewrite Ha, Hb. field.
Qed.

Lemma wallDist_from_centre (p1 p2 : Vector) (ball : Ball) :
  position ball = center ->
  wallDist p1 p2 ball
  = Vec.dot (wallNormal p1 p2)
      (Vec.sub center (Vec.mult (Vec.add p1 p2) 0.5)).
Proof.
  intros Hb. unfold wallDist. cbv zeta. rewrite Hb.
  pose proof (wallNormal_perp p1 p2) as Hp. revert Hp.
  generalize (wallNormal p1 p2). intros n.
  destruct p1 as [a1 b1], p2 as [a2 b2]. unfold center. vec. lra.
Qed.

Lemma square_roots_agree (a b : R) :
  0 <= a -> 0 <= b -> a * a = b * b -> a = b.
Proof. intros Ha Hb H. nra. Qed.

Lemma centre_wallDist (angle : R) (i : nat) (ball : Ball) :
  (i < HEPTAGON_SIDES)%nat ->
  position ball = center ->
  wallDist (vertexAt (heptagonVertices angle) i)
    (vertexAt (heptagonVertices angle) ((i + 1) mod HEPTAGON_SIDES)) ball
  = Rabs heptagonRadius * cos (PI / INR HEPTAGON_SIDES).
Proof.
  intros Hi Hb.
  set (p1 := vertexAt (heptagonVertices angle) i).
  set (p2 := vertexAt (heptagonVertices angle) ((i + 1) mod HEPTAGON_SIDES)).
  rewrite (wallDist_from_centre _ _ _ Hb).
  pose proof cos_half_sector_pos as Hh.
  destruct (Req_dec_T heptagonRadius 0) as [HR|HR].
  - assert (He : Vec.length (Vec.sub p2 p1) = 0).
    { apply length_of_square; [lra|].
      pose proof (edge_sqr angle i Hi) as E. unfold edgeVec in E.
      subst p1 p2. rewrite E, HR. ring. }
    rewrite (wallNormal_degenerate _ _ He), HR, Rabs_R0. vec. ring.
  - pose proof (edge_nondegenerate angle i HR Hi) as He. fold p1 p2 in He.
    pose proof (wallNormal_unit _ _ He) as Hu.
    pose proof (wallNormal_perp p1 p2) as Hp.
    pose proof (wallNormal_inward p1 p2) as Hin.
    pose proof (midpoint_perp_edge angle i Hi) as Hm.
    pose proof (apothem_sqr angle i Hi) as Ha.
    unfold edgeVec in Hm. fold p1 p2 in Hm, Ha.
    assert (Hw : Vec.dot (Vec.sub p2 p1) (Vec.sub p2 p1) <> 0).
    { intros E. apply He. apply length_of_square; [lra|]. rewrite E. ring. }
    pose proof (perpendicular_parallel _ _ _ Hp Hm Hw) as Hx.
    revert Hu Hin Ha Hx.
    generalize (wallNormal p1 p2)
               (Vec.sub center (Vec.mult (Vec.add p1 p2) 0.5)).
    intros n c Hu Hin Ha Hx. unfold Vec.dot in *.
    apply square_roots_agree.
    + exact Hin.
    + apply Rmult_le_pos; [apply Rabs_pos|lra].
    + replace (Rabs heptagonRadius * cos (PI / INR HEPTAGON_SIDES)
               * (Rabs heptagonRadius * cos (PI / INR HEPTAGON_SIDES)))
        with (heptagonRadius * heptagonRadius
              * (cos (PI / INR HEPTAGON_SIDES)
                 * cos (PI / INR HEPTAGON_SIDES))).
      * rewrite <- Ha.
        transitivity ((Vec.x n * Vec.x n + Vec.y n * Vec.y n)
                      * (Vec.x c * Vec.x c + Vec.y c * Vec.y c)
                      - (Vec.x n * Vec.y c - Vec.y n * Vec.x c)
                        * (Vec.x n * Vec.y c - Vec.y n * Vec.x c)); [ring|].
        rewrite Hu, Hx. ring.
      * assert (E : Rabs heptagonRadius * Rabs heptagonRadius
                    = heptagonRadius * heptagonRadius)
          by (rewrite <- Rabs_mult; apply Rabs_pos_eq; nra).
        rewrite <- E. ring.
Qed.

(** [cos (PI / 7)] is more than a half. *)
Lemma cos_half_sector_bound : 1 / 2 < cos (PI / INR HEPTAGON_SIDES).
Proof.
  pose proof PI_RGT_0 as Hpi. rewrite <- cos_PI3.
  apply cos_decreasing_1; unfold HEPTAGON_SIDES; simpl; lra.
Qed.

(** X9. The centre of the heptagon is at the same distance from the line of
    each of its walls, the radius times [cos (PI / HEPTAGON_SIDES)], on the
    inner side; so a ball at the centre whose radius is not larger than
    that touches no wall. *)
Theorem centre_distance_from_walls (angle : R) (i : nat) (ball : Ball) :
  (i < HEPTAGON_SIDES)%nat ->
  position ball = center ->
  wallDist (vertexAt (heptagonVertices angle) i)
    (vertexAt (heptagonVertices angle) ((i + 1) mod HEPTAGON_SIDES)) ball
  = Rabs heptagonRadius * cos (PI / INR HEPTAGON_SIDES)
  /\ (radius ball <= Rabs heptagonRadius * cos (PI / INR HEPTAGON_SIDES) ->
      wallCollide (vertexAt (heptagonVertices angle) i)
        (vertexAt (heptagonVertices angle) ((i + 1) mod HEPTAGON_SIDES)) ball
      = ball).
Proof.
  intros Hi Hb. pose proof (centre_wallDist angle i ball Hi Hb) as Hd.
  split; [exact Hd|].
  intros Hr. unfold wallCollide. cbv zeta.
  destruct (Rlt_dec _ _) as [Hc|_]; [lra|reflexivity].
Qed.


(** ** Balls near the centre *)

Lemma wallNormal_sqr_le_1 (p1 p2 : Vector) :
  Vec.dot (wallNormal p1 p2) (wallNormal p1 p2) <= 1.
Proof.
  destruct (Req_dec_T (Vec.length (Vec.sub p2 p1)) 0) as [H|H].
  - rewrite (wallNormal_degenerate _ _ H). vec. lra.
  - rewrite (wallNormal_unit _ _ H). lra.
Qed.

Lemma dot_ge_neg_length (s n : Vector) :
  Vec.dot n n <= 1 -> - Vec.length s <= Vec.dot s n.
Proof.
  intros Hn.
  pose proof (length_sqr s) as Hs.
  assert (Hl : 0 <= Vec.length s) by apply sqrt_pos.
  revert Hs Hl. generalize (Vec.length s). intros l Hs Hl.
  unfold Vec.dot in *.
  assert (Hcs : (Vec.x s * Vec.x n + Vec.y s * Vec.y n)
                * (Vec.x s * Vec.x n + Vec.y s * Vec.y n)
                <= l * l).
  { assert (Hq : 0 <= (Vec.x s * Vec.y n - Vec.y s * Vec.x n)
                      * (Vec.x s * Vec.y n - Vec.y s * Vec.x n))
      by apply Rle_0_sqr.
    assert (Hi : (Vec.x s * Vec.x n + Vec.y s * Vec.y n)
                 * (Vec.x s * Vec.x n + Vec.y s * Vec.y n)
                 = (Vec.x s * Vec.x s + Vec.y s * Vec.y s)
                   * (Vec.x n * Vec.x n + Vec.y n * Vec.y n)
                   - (Vec.x s * Vec.y n - Vec.y s * Vec.x n)
                     * (Vec.x s * Vec.y n - Vec.y s * Vec.x n)) by ring.
    rewrite Hi, <- Hs.
    assert (0 <= l * l) by nra. nra. }
  nra.
Qed.

(** A ball at distance [s] from the centre is at least
    [|R| cos (PI / 7) - s] from the line of every wall. *)
Lemma wallDist_near_centre (angle : R) (i : nat) (ball : Ball) :
  (i < HEPTAGON_SIDES)%nat ->
  Rabs heptagonRadius * cos (PI / INR HEPTAGON_SIDES)
  - Vec.length (Vec.sub (position ball) center)
  <= wallDist (vertexAt (heptagonVertices angle) i)
       (vertexAt (heptagonVertices angle) ((i + 1) mod HEPTAGON_SIDES)) ball.
Proof.
  intros Hi.
  set (p1 := vertexAt (heptagonVertices angle) i).
  set (p2 := vertexAt (heptagonVertices angle) ((i + 1) mod HEPTAGON_SIDES)).
  pose proof (centre_wallDist angle i
                (setPosition ball centerX centerY) Hi eq_refl) as Hc.
  fold p1 p2 in Hc. rewrite <- Hc.
  pose proof (dot_ge_neg_length (Vec.sub (position ball) center)
                (wallNormal p1 p2) (wallNormal_sqr_le_1 p1 p2)) as Hd.
  revert Hd. generalize (Vec.length (Vec.sub (position ball) center)).
  intros l. unfold wallDist, position, setPosition, center. cbv zeta.
  generalize (wallNormal p1 p2). intros n. vec. lra.
Qed.


(** ** The whole array *)

Lemma total_insert (f : Ball -> Vector) (l : list Ball) (i : nat)
    (b b' : Ball) :
  l !! i = Some b ->
  fold_right (fun c acc => Vec.add (f c) acc) (Vec.mk 0 0) (<[i := b']> l)
  = Vec.add (fold_right (fun c acc => Vec.add (f c) acc) (Vec.mk 0 0) l)
            (Vec.sub (f b') (f b)).
Proof.
  revert i. induction l as [|c l IH]; intros [|i] H; simpl in *;
    try discriminate.
  - injection H as ->. vec. f_equal; ring.
  - rewrite (IH _ H). vec. f_equal; ring.
Qed.

Lemma map_insert_same {A : Type} (f : Ball -> A) (l : list Ball) (i : nat)
    (b b' : Ball) :
  l !! i = Some b -> f b' = f b -> map f (<[i := b']> l) = map f l.
Proof.
  revert i. induction l as [|c l IH]; intros [|i] H E; simpl in *;
    try discriminate.
  - injection H as ->. rewrite E. reflexivity.
  - rewrite (IH _ H E). reflexivity.
Qed.

(** One visit of the pair [(i, j)] keeps every sum that [collide] keeps. *)
Lemma pair_visit_total (f : Ball -> Vector) (bs : list Ball) (i j : nat)
    (ball other : Ball) :
  (forall b o : Ball,
      Vec.add (f (fst (collide b o))) (f (snd (collide b o)))
      = Vec.add (f b) (f o)) ->
  i <> j -> bs !! i = Some ball -> bs !! j = Some other ->
  fold_right (fun c acc => Vec.add (f c) acc) (Vec.mk 0 0)
    (<[j := snd (collide ball other)]> (<[i := fst (collide ball other)]> bs))
  = fold_right (fun c acc => Vec.add (f c) acc) (Vec.mk 0 0) bs.
Proof.
  intros Hf Hij Hi Hj.
  rewrite (total_insert f _ j other)
    by (rewrite list_lookup_insert_ne by exact Hij; exact Hj).
  rewrite (total_insert f _ i ball) by exact Hi.
  specialize (Hf ball other). revert Hf.
  generalize (f (fst (collide ball other))) (f (snd (collide ball other)))
             (f ball) (f other)
             (fold_right (fun c acc => Vec.add (f c) acc) (Vec.mk 0 0) bs).
  intros [a1 a2] [b1 b2] [c1 c2] [d1 d2] [t1 t2]. vec.
  intros [= H1 H2]. f_equal; lra.
Qed.

Lemma ballCollisions_total (f : Ball -> Vector) (i : nat) (js : list nat)
    (bs : list Ball) :
  (forall b o : Ball,
      Vec.add (f (fst (collide b o))) (f (snd (collide b o)))
      = Vec.add (f b) (f o)) ->
  fold_right (fun c acc => Vec.add (f c) acc) (Vec.mk 0 0)
    (ballCollisions i js bs)
  = fold_right (fun c acc => Vec.add (f c) acc) (Vec.mk 0 0) bs.
Proof.
  intros Hf. revert bs. induction js as [|j js IH]; intros bs; simpl.
  - reflexivity.
  - destruct (bs !! i) as [ball|] eqn:Hi; [|apply IH].
    destruct (bs !! j) as [other|] eqn:Hj; [|apply IH].
    destruct (Z.eqb (ball_id ball) (ball_id other)) eqn:Hid; [apply IH|].
    assert (Hij : i <> j).
    { intros ->. rewrite Hi in Hj. injection Hj as ->.
      rewrite Z.eqb_refl in Hid. discriminate. }
    pose proof (pair_visit_total f bs i j ball other Hf Hij Hi Hj) as Hp.
    destruct (collide ball other) as [b1 o1]. simpl in Hp.
    rewrite IH. exact Hp.
Qed.

Lemma ballCollisions_identity (i : nat) (js : list nat) (bs : list Ball) :
  map identity (ballCollisions i js bs) = map identity bs.
Proof.
  revert bs. induction js as [|j js IH]; intros bs; simpl.
  - reflexivity.
  - destruct (bs !! i) as [ball|] eqn:Hi; [|apply IH].
    destruct (bs !! j) as [other|] eqn:Hj; [|apply IH].
    destruct (Z.eqb (ball_id ball) (ball_id other)) eqn:Hid; [apply IH|].
    assert (Hij : i <> j).
    { intros ->. rewrite Hi in Hj. injection Hj as ->.
      rewrite Z.eqb_refl in Hid. discriminate. }
    destruct (collide_identity ball other) as [Hb Ho].
    destruct (collide ball other) as [b1 o1]. simpl in Hb, Ho.
    rewrite IH.
    rewrite (map_insert_same identity _ j other)
      by (rewrite ?list_lookup_insert_ne by exact Hij; assumption).
    apply (map_insert_same identity _ i ball); assumption.
Qed.

(** X18. The ball-to-ball loop of one ball, over any indices, keeps the number
    of balls, the sum of all the velocities and the sum of all the
    positions of the array. *)
Theorem ball_pass_conserves_totals (i : nat) (js : list nat)
    (bs : list Ball) :
  List.length (ballCollisions i js bs) = List.length bs
  /\ totalVelocity (ballCollisions i js bs) = totalVelocity bs
  /\ totalPosition (ballCollisions i js bs) = totalPosition bs.
Proof.
  split; [|split].
  - rewrite <- (length_map identity), ballCollisions_identity.
    apply length_map.
  - apply (ballCollisions_total velocity). intros b o.
    apply (collide_sums b o).
  - apply (ballCollisions_total position). intros b o.
    apply (collide_sums b o).
Qed.

Lemma wallCollisions_identity (vertices : list Vector) (ball : Ball) :
  identity (wallCollisions vertices ball) = identity ball.
Proof.
  unfold wallCollisions. generalize (seq 0 HEPTAGON_SIDES). intros idx.
  revert ball. induction idx as [|i idx IH]; intros ball; simpl.
  - reflexivity.
  - rewrite IH. apply wallCollide_identity.
Qed.

Lemma stepBall_identity (vertices : list Vector) (bs : list Ball) (i : nat) :
  map identity (stepBall vertices bs i) = map identity bs.
Proof.
  unfold stepBall. destruct (bs !! i) as [ball|] eqn:Hi; [|reflexivity].
  cbv zeta. rewrite ballCollisions_identity.
  apply (map_insert_same identity _ i ball); [exact Hi|].
  rewrite wallCollisions_identity. reflexivity.
Qed.

Lemma subStep_identity (vertices : list Vector) (bs : list Ball) :
  map identity (subStep vertices bs) = map identity bs.
Proof.
  unfold subStep. generalize (seq 0 (List.length bs)). intros idx.
  revert bs. induction idx as [|i idx IH]; intros bs; simpl.
  - reflexivity.
  - rewrite IH. apply stepBall_identity.
Qed.

Lemma updatePhysics_identity (s : State) :
  map identity (balls (updatePhysics s)) = map identity (balls s).
Proof.
  unfold updatePhysics, subSteps. cbv zeta. cbn [balls].
  generalize (heptagonVertices (rotationAngle s + ROTATION_SPEED)).
  intros vertices. induction SUB_STEPS as [|k IH]; simpl.
  - reflexivity.
  - rewrite subStep_identity. exact IH.
Qed.

(** X19. However many frames run, the array keeps its balls: the same number of
    them, each with the [id], [radius], [color] and [mass] it started
    with, at the same index; ids that were distinct stay distinct. *)
Theorem frames_keep_identity (n : nat) (s : State) :
  map identity (balls (frames n s)) = map identity (balls s)
  /\ List.length (balls (frames n s)) = List.length (balls s)
  /\ map ball_id (balls (frames n s)) = map ball_id (balls s)
  /\ map radius (balls (frames n s)) = map radius (balls s)
  /\ (NoDup (map ball_id (balls s)) ->
      NoDup (map ball_id (balls (frames n s)))).
Proof.
  assert (H : map identity (balls (frames n s)) = map identity (balls s)).
  { induction n as [|n IH]; [reflexivity|].
    change (frames (S n) s) with (updatePhysics (frames n s)).
    rewrite updatePhysics_identity. exact IH. }
  assert (Hid : map ball_id (balls (frames n s)) = map ball_id (balls s)).
  { change ball_id with (fun b => fst (fst (fst (identity b)))).
    rewrite <- !(map_map identity (fun t => fst (fst (fst t)))), H.
    reflexivity. }
  split; [exact H|]. split; [|split; [exact Hid|split]].
  - rewrite <- (length_map identity), H. apply length_map.
  - change radius with (fun b => snd (fst (fst (identity b)))).
    rewrite <- !(map_map identity (fun t => snd (fst (fst t)))), H.
    reflexivity.
  - rewrite Hid. trivial.
Qed.


(** ** Free flight *)

Lemma wallCollisions_clear (vertices : list Vector) (ball : Ball) :
  (forall k : nat,
      (k < HEPTAGON_SIDES)%nat ->
      ~ wallDist (vertexAt vertices k)
          (vertexAt vertices ((k + 1) mod HEPTAGON_SIDES)) ball
        < radius ball) ->
  wallCollisions vertices ball = ball.
Proof.
  intros H. unfold wallCollisions.
  assert (Hs : forall k, In k (seq 0 HEPTAGON_SIDES) -> (k < HEPTAGON_SIDES)%nat)
    by (intros k Hk; apply in_seq in Hk; lia).
  revert Hs. generalize (seq 0 HEPTAGON_SIDES). intros idx.
  induction idx as [|k idx IH]; intros Hs; cbn [fold_left]; [reflexivity|].
  assert (E : wallCollide (vertexAt vertices k)
                (vertexAt vertices ((k + 1) mod HEPTAGON_SIDES)) ball = ball).
  { unfold wallCollide. cbv zeta.
    destruct (Rlt_dec _ _) as [Hc|_]; [|reflexivity].
    exfalso. apply (H k); [apply Hs; left; reflexivity|exact Hc]. }
  rewrite E. apply IH. intros j Hj. apply Hs. right. exact Hj.
Qed.

Lemma ballCollisions_clear (i : nat) (js : list nat) (bs : list Ball)
    (ball : Ball) :
  bs !! i = Some ball ->
  (forall (j : nat) (other : Ball),
      j <> i -> bs !! j = Some other ->
      ~ Vec.length (distVec ball other) < minDist ball other) ->
  ballCollisions i js bs = bs.
Proof.
  intros Hi H. induction js as [|j js IH]; simpl; [reflexivity|].
  rewrite Hi. destruct (bs !! j) as [other|] eqn:Hj; [|exact IH].
  destruct (Z.eqb (ball_id ball) (ball_id other)) eqn:Hid; [exact IH|].
  assert (Hij : j <> i).
  { intros ->. rewrite Hi in Hj. injection Hj as ->.
    rewrite Z.eqb_refl in Hid. discriminate. }
  rewrite (collide_no_contact _ _ (H j other Hij Hj)).
  rewrite (list_insert_id bs i ball Hi), (list_insert_id bs j other Hj).
  exact IH.
Qed.

(** X20. A ball that, once moved, touches no wall and no other ball goes
    through its turn of the sub-step by gravity, damping and motion alone,
    and no other ball is changed by that turn. *)
Theorem free_flight (vertices : list Vector) (bs : list Ball) (i : nat)
    (ball : Ball) :
  bs !! i = Some ball ->
  (forall k : nat,
      (k < HEPTAGON_SIDES)%nat ->
      ~ wallDist (vertexAt vertices k)
          (vertexAt vertices ((k + 1) mod HEPTAGON_SIDES))
          (moveBall (applyForces ball))
        < radius ball) ->
  (forall (j : nat) (other : Ball),
      j <> i -> bs !! j = Some other ->
      ~ Vec.length (distVec (moveBall (applyForces ball)) other)
        < minDist (moveBall (applyForces ball)) other) ->
  stepBall vertices bs i = <[i := moveBall (applyForces ball)]> bs.
Proof.
  intros Hi Hw Hb. unfold stepBall. rewrite Hi. cbv zeta.
  rewrite (wallCollisions_clear vertices (moveBall (applyForces ball)) Hw).
  apply (ballCollisions_clear i _ _ (moveBall (applyForces ball))).
  - apply list_lookup_insert_eq. apply lookup_lt_Some in Hi. exact Hi.
  - intros j other Hj Ho. rewrite list_lookup_insert_ne in Ho by congruence.
    apply (Hb j other Hj Ho).
Qed.

Lemma free_step_velocity (b : Ball) :
  vx (moveBall (applyForces b)) = FRICTION * vx b
  /\ vy (moveBall (applyForces b)) - terminalFall
     = FRICTION * (vy b - terminalFall).
Proof.
  unfold moveBall, applyForces, setPosition, setVelocity, terminalFall,
    GRAVITY, FRICTION, dt, SUB_STEPS.
  simpl. split; [ring|]. field. lra.
Qed.

(** X21. In free flight the horizontal velocity decays by the factor
    [FRICTION] per sub-step and the vertical velocity approaches the
    terminal value 1.85625 by the same factor: a ball that falls slower
    than that never falls faster than that. *)
Theorem free_fall_velocity (k : nat) (b : Ball) :
  terminalFall = 1.85625
  /\ vx (Nat.iter k (fun c => moveBall (applyForces c)) b)
     = FRICTION ^ k * vx b
  /\ vy (Nat.iter k (fun c => moveBall (applyForces c)) b) - terminalFall
     = FRICTION ^ k * (vy b - terminalFall)
  /\ (vy b <= terminalFall ->
      vy (Nat.iter k (fun c => moveBall (applyForces c)) b) <= terminalFall).
Proof.
  assert (HT : terminalFall = 1.85625).
  { unfold terminalFall, GRAVITY, FRICTION, dt, SUB_STEPS. simpl. lra. }
  assert (Hx : vx (Nat.iter k (fun c => moveBall (applyForces c)) b)
               = FRICTION ^ k * vx b).
  { induction k as [|k IH]; [simpl; ring|].
    rewrite Nat.iter_succ. cbn [pow].
    destruct (free_step_velocity
                (Nat.iter k (fun c => moveBall (applyForces c)) b)) as [E _].
    rewrite E, IH. ring. }
  assert (Hy : vy (Nat.iter k (fun c => moveBall (applyForces c)) b)
               - terminalFall
               = FRICTION ^ k * (vy b - terminalFall)).
  { clear Hx. induction k as [|k IH]; [simpl; ring|].
    rewrite Nat.iter_succ. cbn [pow].
    destruct (free_step_velocity
                (Nat.iter k (fun c => moveBall (applyForces c)) b)) as [_ E].
    rewrite E, IH. ring. }
  split; [exact HT|]. split; [exact Hx|]. split; [exact Hy|].
  intros Hle.
  assert (Hp : 0 <= FRICTION ^ k)
    by (apply pow_le; unfold FRICTION; lra).
  nra.
Qed.

(** X24. The loop over the seven walls leaves a ball at the centre of the
    heptagon untouched, position and velocity, whatever the angle of the
    heptagon, when its radius is at most the radius of the heptagon times
    [cos (PI / HEPTAGON_SIDES)]. *)
Theorem centre_ball_touches_no_wall (angle : R) (ball : Ball) :
  position ball = center ->
  radius ball <= Rabs heptagonRadius * cos (PI / INR HEPTAGON_SIDES) ->
  wallCollisions (heptagonVertices angle) ball = ball.
Proof.
  intros Hb Hr. apply wallCollisions_clear. intros k Hk.
  rewrite (centre_wallDist angle k ball Hk Hb). lra.
Qed.

(** ** The initial balls *)

(** X22. With [Math.random] in [0, 1): there are [NUM_BALLS] balls, their ids
    are 1 to 20 in order (so distinct), every radius is in [12, 20), every
    centre within 50 of the centre of the window in each coordinate, every
    velocity component within 7.5, and every mass is 1. *)
Theorem initBalls_well_formed :
  (forall k : nat, 0 <= random k < 1) ->
  List.length initBalls = NUM_BALLS
  /\ map ball_id initBalls = map Z.of_nat (seq 1 NUM_BALLS)
  /\ NoDup (map ball_id initBalls)
  /\ Forall (fun b : Ball =>
               12 <= radius b < 20
               /\ Rabs (ball_x b - centerX) <= 50
               /\ Rabs (ball_y b - centerY) <= 50
               /\ Rabs (vx b) <= 7.5
               /\ Rabs (vy b) <= 7.5
               /\ mass b = 1) initBalls.
Proof.
  intros Hr.
  assert (Hid : map ball_id initBalls = map Z.of_nat (seq 1 NUM_BALLS)).
  { unfold initBalls. rewrite map_map. reflexivity. }
  split; [unfold initBalls; rewrite length_map, length_seq; reflexivity|].
  split; [exact Hid|]. split.
  - rewrite Hid. apply (bool_decide_unpack _). vm_compute. exact I.
  - unfold initBalls. apply List.Forall_forall. intros b Hb.
    apply in_map_iff in Hb. destruct Hb as (i & <- & _).
    unfold initBall. cbn [radius ball_x ball_y vx vy mass].
    pose proof (Hr (5 * i)%nat). pose proof (Hr (5 * i + 1)%nat).
    pose proof (Hr (5 * i + 2)%nat). pose proof (Hr (5 * i + 3)%nat).
    pose proof (Hr (5 * i + 4)%nat).
    repeat split; try lra; apply Rabs_le; lra.
Qed.

(** X23. The hue of [randomColor] lies in [0, 360) for an index below the
    total, different indices have different hues, and for the balls of the
    simulation the hue of the ball at index [i] is [18 * i]. *)
Theorem hue_spread (index index' total : R) :
  0 < total ->
  (0 <= index < total -> 0 <= hue index total < 360)
  /\ (hue index total = hue index' total -> index = index')
  /\ (forall i : nat, hue (INR i) (INR NUM_BALLS) = 18 * INR i).
Proof.
  intros Ht. unfold hue. split; [|split].
  - intros [H0 H1]. split.
    + apply Rmult_le_pos; [lra|]. left. apply Rinv_0_lt_compat, Ht.
    + apply (Rmult_lt_reg_r total); [exact Ht|].
      replace (index * 360 / total * total) with (index * 360)
        by (field; lra).
      lra.
  - intros H.
    assert (E : index * 360 = index' * 360).
    { replace (index * 360) with (index * 360 / total * total)
        by (field; lra).
      rewrite H. field. lra. }
    lra.
  - intros i. unfold NUM_BALLS. simpl (INR 20). field.
Qed.


End Simulation.

(** ** Worked examples

    The window is 200 by 200 in all of them. *)

Lemma example_wallNormal : wallNormal 200 200 wallP1 wallP2 = Vec.mk 0 1.
Proof.
  assert (Hl : Vec.length (Vec.sub wallP2 wallP1) = 200).
  { apply length_of_square; [lra|]. unfold wallP1, wallP2. vec. ring. }
  unfold wallNormal. cbv zeta.
  rewrite (normalize_of_length _ 200) by (lra || exact Hl).
  destruct (Rlt_dec _ 0) as [H|_].
  - exfalso. revert H. unfold center, centerX, centerY, wallP1, wallP2. vec.
    lra.
  - unfold wallP1, wallP2. vec. f_equal; lra.
Qed.

Lemma example_wallDist (b : Ball) :
  wallDist 200 200 wallP1 wallP2 b = ball_y b.
Proof.
  unfold wallDist. cbv zeta. rewrite example_wallNormal.
  unfold position, wallP1. vec. ring.
Qed.

(** The wall velocity at a point straight above the centre on the screen. *)
Lemma example_wallV (b : Ball) :
  ball_x b = 100 -> ball_y b = 10 -> wallV 200 200 b = Vec.mk 10.8 0.
Proof.
  intros Hx Hy.
  assert (Hl : Vec.length (Vec.sub (position b) (center 200 200)) = 90).
  { apply length_of_square; [lra|].
    unfold position, center, centerX, centerY. rewrite Hx, Hy. vec. lra. }
  unfold wallV. cbv zeta. rewrite Hl.
  rewrite atan2_down
    by (unfold centerX, centerY; rewrite ?Hx, ?Hy; lra).
  rewrite sin_neg, cos_neg, sin_PI2, cos_PI2.
  unfold ROTATION_SPEED. f_equal; lra.
Qed.

Lemma tangent_wall_no_contact_witness :
  wallDist 200 200 wallP1 wallP2 tangentBall = radius tangentBall
  /\ ~ wallDist 200 200 wallP1 wallP2 tangentBall < radius tangentBall
  /\ wallCollide 200 200 wallP1 wallP2 tangentBall = tangentBall.
Proof.
  assert (H : wallDist 200 200 wallP1 wallP2 tangentBall = radius tangentBall)
    by (rewrite example_wallDist; reflexivity).
  split; [exact H|].
  exact (tangent_wall_no_contact 200 200 wallP1 wallP2 tangentBall H).
Defined.

(** The pair of the design document, and the same pair moving apart: the
    centres are 15 apart along the x axis, so the normal is (1,0). *)
Lemma headOn_length : Vec.length (distVec headOnA headOnB) = 15.
Proof.
  apply length_of_square; [lra|].
  unfold distVec, position, headOnA, headOnB. vec. ring.
Qed.

Lemma headOn_normal : contactNormal headOnA headOnB = Vec.mk 1 0.
Proof.
  unfold contactNormal.
  rewrite (normalize_of_length _ 15) by (lra || exact headOn_length).
  unfold distVec, position, headOnA, headOnB. vec. f_equal; lra.
Qed.

Lemma headOn_normalSpeed : normalSpeed headOnA headOnB = 10.
Proof.
  unfold normalSpeed. rewrite headOn_normal.
  unfold relVel, velocity, headOnA, headOnB. vec. lra.
Qed.

Lemma apart_normalSpeed : normalSpeed apartA apartB = -10.
Proof.
  unfold normalSpeed.
  change (contactNormal apartA apartB) with (contactNormal headOnA headOnB).
  rewrite headOn_normal.
  unfold relVel, velocity, apartA, apartB. vec. lra.
Qed.

Lemma headOn_contact :
  Vec.length (distVec headOnA headOnB) < minDist headOnA headOnB.
Proof. rewrite headOn_length. unfold minDist, headOnA, headOnB. simpl. lra. Qed.

Lemma apart_contact :
  Vec.length (distVec apartA apartB) < minDist apartA apartB.
Proof. exact headOn_contact. Qed.

Lemma headOn_separate :
  separate headOnA headOnB
  = (setPosition headOnA (-2.5) 0, setPosition headOnB 17.5 0).
Proof.
  unfold separate. cbv zeta. rewrite headOn_normal, headOn_length.
  unfold minDist, setPosition, headOnA, headOnB. vec.
  f_equal; f_equal; lra.
Qed.

(** A ball of radius 10 at (100,5) is pushed out to (100,10), where the wall
    moves at (10.8, 0). *)
Lemma example_pushed_relVel (b : Ball) :
  ball_x b = 100 -> ball_y b = 5 -> radius b = 10 ->
  wallRelVel 200 200 (pushedOut 200 200 wallP1 wallP2 b)
  = Vec.mk (vx b - 10.8) (vy b).
Proof.
  intros Hx Hy Hr. unfold pushedOut.
  rewrite example_wallNormal, example_wallDist.
  unfold wallRelVel. rewrite example_wallV.
  - unfold velocity, pushOut, setPosition. vec. f_equal; lra.
  - unfold pushOut, setPosition. simpl. lra.
  - unfold pushOut, setPosition. simpl. lra.
Qed.

Lemma leavingBall_contact :
  wallDist 200 200 wallP1 wallP2 leavingBall < radius leavingBall.
Proof. rewrite example_wallDist. simpl. lra. Qed.

Lemma hittingBall_contact :
  wallDist 200 200 wallP1 wallP2 hittingBall < radius hittingBall.
Proof. rewrite example_wallDist. simpl. lra. Qed.

Lemma leavingBall_normal_speed :
  wallNormalSpeed 200 200 wallP1 wallP2 leavingBall = 1.
Proof.
  unfold wallNormalSpeed. rewrite example_pushed_relVel by reflexivity.
  rewrite example_wallNormal. vec. lra.
Qed.

Lemma hittingBall_normal_speed :
  wallNormalSpeed 200 200 wallP1 wallP2 hittingBall = -1.
Proof.
  unfold wallNormalSpeed. rewrite example_pushed_relVel by reflexivity.
  rewrite example_wallNormal. vec. lra.
Qed.

(** The same two balls moving apart ([vn = -10]) do get the impulse, 9 along
    (1,0): their velocities (-5,0) and (5,0) become (4,0) and (-4,0), which
    sends them back towards each other. *)
Lemma apart_pair_is_turned_back :
  normalSpeed apartA apartB = -10
  /\ velocity (fst (collide apartA apartB)) = Vec.mk 4 0
  /\ velocity (snd (collide apartA apartB)) = Vec.mk (-4) 0.
Proof.
  split; [exact apart_normalSpeed|].
  rewrite (collide_contact _ _ apart_contact), apart_normalSpeed.
  destruct (Rgt_dec (-10) 0) as [H|_]; [lra|].
  change (contactNormal apartA apartB) with (contactNormal headOnA headOnB).
  rewrite headOn_normal.
  unfold exchange, velocity, setVelocity, restitution. vec.
  split; f_equal; lra.
Qed.

(** C1, on the code.  The pair of the design document is closing in: one
    [moveBall] takes the centre distance from 15 to 13.75.  The code finds
    [vn = 10] for it: [vRel] is the velocity of [ball] minus that of [other]
    and [n] points from [ball] to [other], so two balls that approach each
    other have [vn > 0] and leave through the exit commented "Moving away".
    The centres are pushed to (-2.5,0) and (17.5,0), at distance 20, and the
    velocities stay (5,0) and (-5,0), not (-4,0) and (4,0); the second visit
    of the pair, from the other ball, finds no contact. *)
Theorem head_on_pair_keeps_velocities :
  Vec.length (distVec (moveBall headOnA) (moveBall headOnB)) = 13.75
  /\ normalSpeed headOnA headOnB = 10
  /\ collide headOnA headOnB
     = (setPosition headOnA (-2.5) 0, setPosition headOnB 17.5 0)
  /\ velocity (fst (collide headOnA headOnB)) = Vec.mk 5 0
  /\ velocity (snd (collide headOnA headOnB)) = Vec.mk (-5) 0
  /\ Vec.length (distVec (fst (collide headOnA headOnB))
                         (snd (collide headOnA headOnB))) = 20
  /\ ballCollisions 0 [0; 1]%nat [headOnA; headOnB]
     = [setPosition headOnA (-2.5) 0; setPosition headOnB 17.5 0]
  /\ ballCollisions 1 [0; 1]%nat
       [setPosition headOnA (-2.5) 0; setPosition headOnB 17.5 0]
     = [setPosition headOnA (-2.5) 0; setPosition headOnB 17.5 0].
Proof.
  assert (Hc : collide headOnA headOnB
               = (setPosition headOnA (-2.5) 0, setPosition headOnB 17.5 0)).
  { rewrite (collide_contact _ _ headOn_contact), headOn_normalSpeed.
    destruct (Rgt_dec 10 0) as [_|H]; [apply headOn_separate|lra]. }
  assert (Hl : Vec.length (distVec (setPosition headOnB 17.5 0)
                                   (setPosition headOnA (-2.5) 0)) = 20).
  { apply length_of_square; [lra|]. unfold distVec, position. vec. lra. }
  split.
  { apply length_of_square; [lra|].
    unfold distVec, position, moveBall, dt. vec. lra. }
  split; [exact headOn_normalSpeed|].
  split; [exact Hc|]. rewrite Hc.
  split; [reflexivity|]. split; [reflexivity|]. split; [|split].
  - apply length_of_square; [lra|]. unfold distVec, position. vec. lra.
  - simpl. rewrite Hc. reflexivity.
  - simpl. rewrite collide_no_contact; [reflexivity|].
    rewrite Hl. unfold minDist. simpl. lra.
Qed.

Lemma apart_collide :
  collide apartA apartB
  = (mkBall 1 (-2.5) 0 4 0 10 "red" 1, mkBall 2 17.5 0 (-4) 0 10 "blue" 1).
Proof.
  rewrite (collide_contact _ _ apart_contact), apart_normalSpeed.
  destruct (Rgt_dec (-10) 0) as [H|_]; [lra|].
  change (contactNormal apartA apartB) with (contactNormal headOnA headOnB).
  unfold separate. cbv zeta.
  change (contactNormal apartA apartB) with (contactNormal headOnA headOnB).
  change (distVec apartA apartB) with (distVec headOnA headOnB).
  rewrite headOn_normal, headOn_length.
  unfold exchange, setVelocity, setPosition, minDist, restitution,
    apartA, apartB. vec.
  f_equal; f_equal; lra.
Qed.

(** C2, on the code.  The wall half holds: a wall contact in which the ball
    does not move into the wall keeps the velocity, moves the centre along
    the normal by [radius - dist], and so puts it at distance [radius] from
    the line of a wall whose ends differ.  The pair half does not.  The two
    balls [apartA] and [apartB] overlap (15 < 20) and move apart: one
    [moveBall] takes the centre distance from 15 to 16.25, and the velocity
    of each relative to the other has the component +10 along the normal
    that points from the other to it (the sign for which the closing pair
    of the design document has -10).  The code computes [vn = -10] for
    them, does not take the exit commented "Moving away", and changes both
    velocities, from (-5,0) and (5,0) to (4,0) and (-4,0); the centres are
    corrected to (-2.5,0) and (17.5,0). *)
Theorem separating_pair_is_turned_back (width height : R) :
  (forall (p1 p2 : Vector) (ball : Ball),
      wallDist width height p1 p2 ball < radius ball ->
      0 <= wallNormalSpeed width height p1 p2 ball ->
      velocity (wallCollide width height p1 p2 ball) = velocity ball
      /\ position (wallCollide width height p1 p2 ball)
         = Vec.add (position ball)
             (Vec.mult (wallNormal width height p1 p2)
                (radius ball - wallDist width height p1 p2 ball))
      /\ (Vec.length (Vec.sub p2 p1) <> 0 ->
          wallDist width height p1 p2 (wallCollide width height p1 p2 ball)
          = radius ball))
  /\ (Vec.length (distVec apartA apartB) = 15
      /\ minDist apartA apartB = 20
      /\ Vec.length (distVec (moveBall apartA) (moveBall apartB)) = 16.25
      /\ Vec.dot (relVel apartB apartA) (contactNormal apartA apartB) = 10
      /\ Vec.dot (relVel apartA apartB) (contactNormal apartB apartA) = 10
      /\ normalSpeed apartA apartB = -10
      /\ collide apartA apartB
         = (mkBall 1 (-2.5) 0 4 0 10 "red" 1,
            mkBall 2 17.5 0 (-4) 0 10 "blue" 1)
      /\ velocity (fst (collide apartA apartB)) <> velocity apartA
      /\ velocity (snd (collide apartA apartB)) <> velocity apartB).
Proof.
  split.
  - intros p1 p2 ball Hc Hsep.
    destruct (wall_separating_inert width height p1 p2 ball Hc Hsep)
      as [Hv Hp].
    split; [exact Hv|]. split; [exact Hp|].
    intros He. apply wallDist_corrected; assumption.
  - assert (Hn : contactNormal apartA apartB = Vec.mk 1 0) by exact headOn_normal.
    assert (Hn' : contactNormal apartB apartA = Vec.mk (-1) 0).
    { unfold contactNormal. rewrite distVec_swap, normalize_opp.
      fold (contactNormal apartA apartB). rewrite Hn. vec. f_equal; lra. }
    split; [exact headOn_length|].
    split; [unfold minDist; simpl; lra|].
    split.
    { apply length_of_square; [lra|].
      unfold distVec, position, moveBall, dt. vec. lra. }
    split; [rewrite Hn; unfold relVel, velocity; vec; lra|].
    split; [rewrite Hn'; unfold relVel, velocity; vec; lra|].
    split; [exact apart_normalSpeed|].
    split; [exact apart_collide|].
    rewrite apart_collide. unfold velocity. simpl.
    split; intros [= H]; lra.
Qed.

Lemma separating_pair_is_turned_back_witness :
  wallDist 200 200 wallP1 wallP2 leavingBall < radius leavingBall
  /\ 0 <= wallNormalSpeed 200 200 wallP1 wallP2 leavingBall
  /\ Vec.length (Vec.sub wallP2 wallP1) <> 0
  /\ velocity (wallCollide 200 200 wallP1 wallP2 leavingBall)
     = velocity leavingBall
  /\ position (wallCollide 200 200 wallP1 wallP2 leavingBall)
     = Vec.add (position leavingBall)
         (Vec.mult (wallNormal 200 200 wallP1 wallP2)
            (radius leavingBall - wallDist 200 200 wallP1 wallP2 leavingBall))
  /\ wallDist 200 200 wallP1 wallP2
       (wallCollide 200 200 wallP1 wallP2 leavingBall)
     = radius leavingBall.
Proof.
  assert (Hw : 0 <= wallNormalSpeed 200 200 wallP1 wallP2 leavingBall)
    by (rewrite leavingBall_normal_speed; lra).
  assert (He : Vec.length (Vec.sub wallP2 wallP1) <> 0).
  { replace (Vec.length (Vec.sub wallP2 wallP1)) with 200; [lra|].
    symmetry. apply length_of_square; [lra|]. unfold wallP1, wallP2. vec. ring. }
  destruct (proj1 (separating_pair_is_turned_back 200 200)
              wallP1 wallP2 leavingBall leavingBall_contact Hw)
    as (Hv & Hp & Hd).
  split; [exact leavingBall_contact|]. split; [exact Hw|].
  split; [exact He|]. split; [exact Hv|]. split; [exact Hp|exact (Hd He)].
Defined.

Lemma pairwise_momentum_conserved_witness :
  mass apartA = mass apartB
  /\ Vec.length (distVec apartA apartB) < minDist apartA apartB
  /\ ~ normalSpeed apartA apartB > 0
  /\ Vec.add (velocity (fst (collide apartA apartB)))
             (velocity (snd (collide apartA apartB)))
     = Vec.add (velocity apartA) (velocity apartB).
Proof.
  assert (Hvn : ~ normalSpeed apartA apartB > 0)
    by (rewrite apart_normalSpeed; lra).
  split; [reflexivity|]. split; [exact apart_contact|]. split; [exact Hvn|].
  exact (pairwise_momentum_conserved apartA apartB eq_refl apart_contact Hvn).
Defined.

Lemma normal_speed_scaled_by_restitution_witness :
  (wallDist 200 200 wallP1 wallP2 hittingBall < radius hittingBall
   /\ wallNormalSpeed 200 200 wallP1 wallP2 hittingBall < 0
   /\ Rabs (Vec.dot (wallRelVel 200 200
                       (wallCollide 200 200 wallP1 wallP2 hittingBall))
                    (wallNormal 200 200 wallP1 wallP2))
      <= WALL_BOUNCE * Rabs (wallNormalSpeed 200 200 wallP1 wallP2 hittingBall))
  /\ (Vec.length (distVec apartA apartB) < minDist apartA apartB
      /\ ~ normalSpeed apartA apartB > 0
      /\ Rabs (Vec.dot (relVel (fst (collide apartA apartB))
                               (snd (collide apartA apartB)))
                       (contactNormal apartA apartB))
         <= restitution * Rabs (normalSpeed apartA apartB)).
Proof.
  destruct (normal_speed_scaled_by_restitution 200 200) as [Hwall Hpair].
  assert (Hw : wallNormalSpeed 200 200 wallP1 wallP2 hittingBall < 0)
    by (rewrite hittingBall_normal_speed; lra).
  assert (Hvn : ~ normalSpeed apartA apartB > 0)
    by (rewrite apart_normalSpeed; lra).
  split.
  - split; [exact hittingBall_contact|]. split; [exact Hw|].
    exact (Hwall wallP1 wallP2 hittingBall hittingBall_contact Hw).
  - split; [exact apart_contact|]. split; [exact Hvn|].
    exact (Hpair apartA apartB apart_contact Hvn).
Defined.

(** Counterexample to C5 as stated.  Two balls of radius 10 on the same
    point are a contact, and after the pair has been handled the centre
    distance is still 0, short of the minimum 20 by the whole 20.  In a
    window of size 0 every vertex is the centre, the wall normal is the zero
    vector, and a ball of radius 10 keeps its distance 0 from the wall. *)
Lemma coincident_pair_stays_overlapped :
  (Vec.length (distVec stackedA stackedB) < minDist stackedA stackedB
   /\ minDist stackedA stackedB = 20
   /\ Vec.length (distVec (fst (collide stackedA stackedB))
                          (snd (collide stackedA stackedB))) = 0
   /\ ~ minDist stackedA stackedB - 1
        <= Vec.length (distVec (fst (collide stackedA stackedB))
                               (snd (collide stackedA stackedB))))
  /\ (let p1 := vertexAt (heptagonVertices 0 0 0) 0 in
      let p2 := vertexAt (heptagonVertices 0 0 0) 1 in
      wallDist 0 0 p1 p2 stackedA < radius stackedA
      /\ wallDist 0 0 p1 p2 (wallCollide 0 0 p1 p2 stackedA) = 0
      /\ ~ radius stackedA - 1
           <= wallDist 0 0 p1 p2 (wallCollide 0 0 p1 p2 stackedA)).
Proof.
  assert (Hd : Vec.length (distVec stackedA stackedB) = 0).
  { apply length_of_square; [lra|]. unfold distVec, position. vec. ring. }
  assert (Hm : minDist stackedA stackedB = 20)
    by (unfold minDist; simpl; lra).
  assert (Hc : collide stackedA stackedB = (stackedA, stackedB)).
  { rewrite collide_contact by (rewrite Hd, Hm; lra).
    assert (Hn : contactNormal stackedA stackedB = Vec.mk 0 0)
      by (apply normalize_zero, Hd).
    assert (Hs : separate stackedA stackedB = (stackedA, stackedB))
      by (apply separate_coincident; reflexivity).
    rewrite Hs, Hn. simpl. rewrite exchange_coincident.
    destruct (Rgt_dec _ 0); reflexivity. }
  split.
  - rewrite Hc. simpl. rewrite Hd, Hm. repeat split; lra.
  - cbv zeta.
    assert (Hv : forall i, vertex 0 0 0 i = Vec.mk 0 0).
    { intros i. unfold vertex, centerX, centerY, heptagonRadius. cbv zeta.
      rewrite Rmin_left by lra. f_equal; lra. }
    assert (Hn : wallNormal 0 0 (vertexAt (heptagonVertices 0 0 0) 0)
                   (vertexAt (heptagonVertices 0 0 0) 1) = Vec.mk 0 0).
    { apply wallNormal_degenerate.
      unfold vertexAt, heptagonVertices. simpl. rewrite !Hv.
      apply length_of_square; [lra|]. vec. ring. }
    assert (Hw : forall b, wallDist 0 0 (vertexAt (heptagonVertices 0 0 0) 0)
                   (vertexAt (heptagonVertices 0 0 0) 1) b = 0).
    { intros b. unfold wallDist. cbv zeta. rewrite Hn. vec. ring. }
    rewrite !Hw. simpl. repeat split; lra.
Qed.

Lemma position_correction_reaches_minimum_witness :
  wallDist 200 200 wallP1 wallP2
    (wallCollide 200 200 wallP1 wallP2 hittingBall) = 10
  /\ Vec.length
       (Vec.sub (vertexAt (heptagonVertices 200 200 0) ((6 + 1) mod HEPTAGON_SIDES))
                (vertexAt (heptagonVertices 200 200 0) 6)) <> 0
  /\ Vec.length (distVec (fst (collide headOnA headOnB))
                         (snd (collide headOnA headOnB))) = 20.
Proof.
  destruct (position_correction_reaches_minimum 200 200)
    as (Hwall & Hedge & Hpair).
  split; [|split].
  - change 10 with (radius hittingBall).
    apply Hwall; [|exact hittingBall_contact].
    replace (Vec.length (Vec.sub wallP2 wallP1)) with 200; [lra|].
    symmetry. apply length_of_square; [lra|]. unfold wallP1, wallP2. vec. ring.
  - apply Hedge.
    + unfold heptagonRadius. rewrite Rmin_left by lra. lra.
    + unfold HEPTAGON_SIDES. lia.
  - replace 20 with (minDist headOnA headOnB)
      by (unfold minDist; simpl; lra).
    apply Hpair; [|exact headOn_contact]. rewrite headOn_length. lra.
Defined.

Lemma rotation_once_per_frame_witness :
  rotationAngle (frames 200 200 3 (initialState [headOnA; headOnB]))
  = 3 * ROTATION_SPEED
  /\ vertexAt (heptagonVertices 200 200 0.03) 3
     = Vec.mk
         (centerX 200 + heptagonRadius 200 200
                        * cos (0.03 + INR 3 * 2 * PI / INR HEPTAGON_SIDES))
         (centerY 200 + heptagonRadius 200 200
                        * sin (0.03 + INR 3 * 2 * PI / INR HEPTAGON_SIDES)).
Proof.
  destruct (rotation_once_per_frame 200 200) as (_ & _ & Hn & _ & Hv).
  split.
  - rewrite Hn. simpl. ring.
  - apply Hv. unfold HEPTAGON_SIDES. lia.
Defined.

Lemma normalize_guarded_witness :
  Vec.mk 3 4 <> Vec.mk 0 0
  /\ Vec.normalize (Vec.mk 3 4) = Vec.mk (3 / 5) (4 / 5).
Proof.
  assert (Hv : Vec.mk 3 4 <> Vec.mk 0 0) by (intros [= H _]; lra).
  split; [exact Hv|].
  destruct normalize_guarded as (_ & Hnz & _).
  destruct (Hnz _ Hv) as [_ ->].
  rewrite (length_of_square (Vec.mk 3 4) 5) by (vec; lra).
  reflexivity.
Defined.

Lemma physics_ignores_color_and_mass_witness :
  Forall2 (fun b1 b2 => position b1 = position b2 /\ velocity b1 = velocity b2)
    (balls (updatePhysics 200 200 (mkState 0 [headOnA; headOnB])))
    (balls (updatePhysics 200 200 (mkState 0 [headOnA'; headOnB']))).
Proof.
  apply (physics_ignores_color_and_mass 200 200
           (mkState 0 [headOnA; headOnB]) (mkState 0 [headOnA'; headOnB'])).
  - reflexivity.
  - repeat constructor.
Defined.

Lemma coincident_centers_noop_witness :
  0 < minDist stackedA stackedB
  /\ Vec.length (distVec stackedA stackedB) < minDist stackedA stackedB
  /\ collide stackedA stackedB = (stackedA, stackedB).
Proof.
  assert (Hm : 0 < minDist stackedA stackedB) by (unfold minDist; simpl; lra).
  destruct (coincident_centers_noop stackedA stackedB eq_refl eq_refl)
    as (_ & Hc & _ & _ & _ & Hcol & _).
  split; [exact Hm|]. split; [exact (Hc Hm)|exact Hcol].
Defined.

(** ** Worked examples for the further properties *)

Lemma normalize_has_unit_length_witness :
  Vec.mk 3 4 <> Vec.mk 0 0 /\ Vec.length (Vec.normalize (Vec.mk 3 4)) = 1.
Proof.
  assert (Hv : Vec.mk 3 4 <> Vec.mk 0 0) by (intros [= H _]; lra).
  split; [exact Hv|]. exact (normalize_has_unit_length (Vec.mk 3 4) Hv).
Defined.

Lemma example_radius : heptagonRadius 200 200 = 80.
Proof. unfold heptagonRadius. rewrite Rmin_left by lra. lra. Qed.

Lemma centreBall_at_centre : position centreBall = center 200 200.
Proof.
  unfold position, center, centerX, centerY, centreBall. simpl. f_equal; lra.
Qed.

Lemma heptagon_vertices_on_circle_witness :
  (3 < HEPTAGON_SIDES)%nat
  /\ Vec.length (Vec.sub (vertexAt (heptagonVertices 200 200 0) 3)
                         (center 200 200))
     = Rabs (heptagonRadius 200 200).
Proof.
  assert (Hi : (3 < HEPTAGON_SIDES)%nat) by (unfold HEPTAGON_SIDES; lia).
  split; [exact Hi|].
  exact (proj2 (heptagon_vertices_on_circle 200 200 0) 3%nat Hi).
Defined.

Lemma heptagon_edges_equal_witness :
  (0 < HEPTAGON_SIDES)%nat /\ (6 < HEPTAGON_SIDES)%nat
  /\ Vec.length (edgeVec (heptagonVertices 200 200 0) 0)
     = Vec.length (edgeVec (heptagonVertices 200 200 0) 6).
Proof.
  assert (H0 : (0 < HEPTAGON_SIDES)%nat) by (unfold HEPTAGON_SIDES; lia).
  assert (H6 : (6 < HEPTAGON_SIDES)%nat) by (unfold HEPTAGON_SIDES; lia).
  split; [exact H0|]. split; [exact H6|].
  exact (proj1 (heptagon_edges_equal 200 200 0 0 6 H0 H6)).
Defined.

Lemma wall_normal_points_inward_witness :
  position centreBall = center 200 200
  /\ 0 <= wallDist 200 200 wallP1 wallP2 centreBall.
Proof.
  split; [exact centreBall_at_centre|].
  destruct (wall_normal_points_inward 200 200 wallP1 wallP2) as (_ & _ & H).
  exact (H centreBall centreBall_at_centre).
Defined.

Lemma wall_contact_stops_approach_witness :
  wallDist 200 200 wallP1 wallP2 hittingBall < radius hittingBall
  /\ 0 <= Vec.dot (wallRelVel 200 200
                     (wallCollide 200 200 wallP1 wallP2 hittingBall))
                  (wallNormal 200 200 wallP1 wallP2).
Proof.
  split; [exact hittingBall_contact|].
  exact (wall_contact_stops_approach 200 200 wallP1 wallP2 hittingBall
           hittingBall_contact).
Defined.

Lemma wall_bounce_is_frictionless_witness :
  wallDist 200 200 wallP1 wallP2 hittingBall < radius hittingBall
  /\ Vec.dot (wallRelVel 200 200
                (wallCollide 200 200 wallP1 wallP2 hittingBall))
             (wallRelVel 200 200
                (wallCollide 200 200 wallP1 wallP2 hittingBall))
     <= Vec.dot (wallRelVel 200 200 (pushedOut 200 200 wallP1 wallP2 hittingBall))
                (wallRelVel 200 200 (pushedOut 200 200 wallP1 wallP2 hittingBall)).
Proof.
  split; [exact hittingBall_contact|].
  exact (proj2 (wall_bounce_is_frictionless 200 200 wallP1 wallP2 hittingBall
                  hittingBall_contact)).
Defined.

Lemma pair_energy_not_increased_witness :
  Vec.length (distVec apartA apartB) < minDist apartA apartB
  /\ ~ normalSpeed apartA apartB > 0
  /\ speedSquared (fst (collide apartA apartB))
     + speedSquared (snd (collide apartA apartB))
     = speedSquared apartA + speedSquared apartB
       - (1 - restitution * restitution) / 2
         * (normalSpeed apartA apartB * normalSpeed apartA apartB).
Proof.
  assert (Hvn : ~ normalSpeed apartA apartB > 0)
    by (rewrite apart_normalSpeed; lra).
  split; [exact apart_contact|]. split; [exact Hvn|].
  exact (proj2 (pair_energy_not_increased apartA apartB) apart_contact Hvn).
Defined.

Lemma centre_distance_from_walls_witness :
  (2 < HEPTAGON_SIDES)%nat
  /\ position centreBall = center 200 200
  /\ radius centreBall
     <= Rabs (heptagonRadius 200 200) * cos (PI / INR HEPTAGON_SIDES)
  /\ wallCollide 200 200 (vertexAt (heptagonVertices 200 200 0) 2)
       (vertexAt (heptagonVertices 200 200 0) ((2 + 1) mod HEPTAGON_SIDES))
       centreBall
     = centreBall.
Proof.
  assert (Hi : (2 < HEPTAGON_SIDES)%nat) by (unfold HEPTAGON_SIDES; lia).
  assert (Hr : radius centreBall
               <= Rabs (heptagonRadius 200 200)
                  * cos (PI / INR HEPTAGON_SIDES)).
  { rewrite example_radius, Rabs_pos_eq by lra.
    pose proof cos_half_sector_bound. change (radius centreBall) with 10.
    lra. }
  split; [exact Hi|]. split; [exact centreBall_at_centre|].
  split; [exact Hr|].
  exact (proj2 (centre_distance_from_walls 200 200 0 2 centreBall Hi
                  centreBall_at_centre) Hr).
Defined.

Lemma frames_keep_identity_witness :
  NoDup (map ball_id [headOnA; headOnB])
  /\ NoDup (map ball_id
              (balls (frames 200 200 3 (mkState 0 [headOnA; headOnB]))))
  /\ map radius (balls (frames 200 200 3 (mkState 0 [headOnA; headOnB])))
     = [10; 10].
Proof.
  assert (Hn : NoDup (map ball_id [headOnA; headOnB])).
  { apply (bool_decide_unpack _). vm_compute. exact I. }
  destruct (frames_keep_identity 200 200 3 (mkState 0 [headOnA; headOnB]))
    as (_ & _ & _ & Hr & Hd).
  split; [exact Hn|]. split; [exact (Hd Hn)|exact Hr].
Defined.

Lemma hoveringBall_moved :
  moveBall (applyForces hoveringBall) = centreBall.
Proof.
  unfold moveBall, applyForces, setPosition, setVelocity, hoveringBall,
    centreBall, GRAVITY, FRICTION, dt, SUB_STEPS.
  simpl. f_equal; lra.
Qed.

Lemma free_flight_witness :
  stepBall 200 200 (heptagonVertices 200 200 0) [hoveringBall] 0
  = [centreBall].
Proof.
  rewrite <- hoveringBall_moved.
  apply (free_flight 200 200 (heptagonVertices 200 200 0) [hoveringBall] 0
           hoveringBall).
  - reflexivity.
  - intros k Hk. rewrite hoveringBall_moved.
    rewrite (centre_wallDist 200 200 0 k centreBall Hk centreBall_at_centre).
    rewrite example_radius, Rabs_pos_eq by lra.
    pose proof cos_half_sector_bound. change (radius hoveringBall) with 10.
    lra.
  - intros [|j] other Hj Ho; [congruence|discriminate].
Defined.

Lemma free_fall_velocity_witness :
  vy headOnA <= terminalFall
  /\ vy (Nat.iter 3 (fun c => moveBall (applyForces c)) headOnA)
     <= terminalFall.
Proof.
  destruct (free_fall_velocity 3 headOnA) as (HT & _ & _ & H).
  assert (Hle : vy headOnA <= terminalFall) by (rewrite HT; simpl; lra).
  split; [exact Hle|exact (H Hle)].
Defined.

Lemma initBalls_well_formed_witness :
  (forall k : nat, 0 <= (fun _ : nat => 0.5) k < 1)
  /\ List.length (initBalls 200 200 (fun _ => "0"%string) (fun _ => 0.5))
     = NUM_BALLS
  /\ NoDup (map ball_id
              (initBalls 200 200 (fun _ => "0"%string) (fun _ => 0.5))).
Proof.
  assert (Hr : forall k : nat, 0 <= (fun _ : nat => 0.5) k < 1)
    by (intros k; simpl; lra).
  destruct (initBalls_well_formed 200 200 (fun _ => "0"%string)
              (fun _ => 0.5) Hr) as (Hl & _ & Hn & _).
  split; [exact Hr|]. split; [exact Hl|exact Hn].
Defined.

Lemma hue_spread_witness :
  0 < 20 /\ 0 <= 3 < 20 /\ 0 <= hue 3 20 < 360.
Proof.
  assert (Ht : 0 < 20) by lra.
  assert (Hi : 0 <= 3 < 20) by lra.
  split; [exact Ht|]. split; [exact Hi|].
  exact (proj1 (hue_spread 3 5 20 Ht) Hi).
Defined.

Lemma centre_ball_touches_no_wall_witness :
  position centreBall = center 200 200
  /\ radius centreBall
     <= Rabs (heptagonRadius 200 200) * cos (PI / INR HEPTAGON_SIDES)
  /\ wallCollisions 200 200 (heptagonVertices 200 200 0.01) centreBall
     = centreBall.
Proof.
  assert (Hr : radius centreBall
               <= Rabs (heptagonRadius 200 200)
                  * cos (PI / INR HEPTAGON_SIDES)).
  { rewrite example_radius, Rabs_pos_eq by lra.
    pose proof cos_half_sector_bound. change (radius centreBall) with 10.
    lra. }
  split; [exact centreBall_at_centre|]. split; [exact Hr|].
  exact (centre_ball_touches_no_wall 200 200 0.01 centreBall
           centreBall_at_centre Hr).
Defined.

(** Two coincident balls within one sub-step, in the window of 200 by 200.
    [hoveringBall] has its turn first: its move leaves it on the centre,
    where [slidingBall] is, and its visit of the pair changes nothing.
    Then [slidingBall] has its turn: its move takes it to (101,100), one
    unit from the other ball, and its visit of the pair pushes the two to
    (90.5,100) and (110.5,100). *)
Lemma slidingBall_moved :
  moveBall (applyForces slidingBall) = mkBall 2 101 100 8 0 10 "blue" 1.
Proof.
  unfold moveBall, applyForces, setPosition, setVelocity, slidingBall,
    GRAVITY, FRICTION, dt, SUB_STEPS.
  simpl. f_equal; lra.
Qed.

Lemma near_centre_clear (angle : R) (ball : Ball) :
  radius ball = 10 ->
  Vec.length (Vec.sub (position ball) (center 200 200)) <= 1 ->
  wallCollisions 200 200 (heptagonVertices 200 200 angle) ball = ball.
Proof.
  intros Hr Hs. apply wallCollisions_clear. intros k Hk.
  pose proof (wallDist_near_centre 200 200 angle k ball Hk) as Hd.
  rewrite example_radius, Rabs_pos_eq in Hd by lra.
  pose proof cos_half_sector_bound. lra.
Qed.

Lemma slid_collide :
  collide (mkBall 2 101 100 8 0 10 "blue" 1) centreBall
  = (mkBall 2 110.5 100 0.8 0 10 "blue" 1, mkBall 1 90.5 100 7.2 0 10 "red" 1).
Proof.
  set (b := mkBall 2 101 100 8 0 10 "blue" 1).
  assert (Hl : Vec.length (distVec b centreBall) = 1).
  { apply length_of_square; [lra|]. unfold distVec, position. vec. ring. }
  assert (Hn : contactNormal b centreBall = Vec.mk (-1) 0).
  { unfold contactNormal.
    rewrite (normalize_of_length _ 1) by (lra || exact Hl).
    unfold distVec, position. vec. f_equal; lra. }
  assert (Hv : normalSpeed b centreBall = -8).
  { unfold normalSpeed. rewrite Hn. unfold relVel, velocity. vec. lra. }
  rewrite collide_contact by (rewrite Hl; unfold minDist; simpl; lra).
  rewrite Hv. destruct (Rgt_dec (-8) 0) as [H|_]; [lra|].
  unfold separate. cbv zeta. rewrite Hn, Hl.
  unfold exchange, setVelocity, setPosition, minDist, restitution. vec.
  f_equal; f_equal; lra.
Qed.

(** Counterexample to C10 as stated: the coincidence that the first ball
    meets is left as it is by its visit, and yet the sub-step ends with the
    two centres 20 apart, the overlap gone. *)
Lemma coincident_pair_separated_in_substep :
  position (moveBall (applyForces hoveringBall)) = position slidingBall
  /\ Vec.length (distVec (moveBall (applyForces hoveringBall)) slidingBall)
     < minDist (moveBall (applyForces hoveringBall)) slidingBall
  /\ collide (moveBall (applyForces hoveringBall)) slidingBall
     = (moveBall (applyForces hoveringBall), slidingBall)
  /\ subStep 200 200 (heptagonVertices 200 200 0) [hoveringBall; slidingBall]
     = [mkBall 1 90.5 100 7.2 0 10 "red" 1;
        mkBall 2 110.5 100 0.8 0 10 "blue" 1]
  /\ Vec.length (distVec (mkBall 1 90.5 100 7.2 0 10 "red" 1)
                         (mkBall 2 110.5 100 0.8 0 10 "blue" 1))
     = minDist hoveringBall slidingBall.
Proof.
  assert (Hp : position slidingBall = position centreBall) by reflexivity.
  assert (Hc : collide centreBall slidingBall = (centreBall, slidingBall))
    by (apply collide_coincident, Hp).
  assert (Hw1 : wallCollisions 200 200 (heptagonVertices 200 200 0) centreBall
                = centreBall).
  { apply near_centre_clear; [reflexivity|].
    rewrite centreBall_at_centre.
    replace (Vec.length (Vec.sub (center 200 200) (center 200 200))) with 0;
      [lra|].
    symmetry. apply length_of_square; [lra|]. vec. ring. }
  assert (Hw2 : wallCollisions 200 200 (heptagonVertices 200 200 0)
                  (mkBall 2 101 100 8 0 10 "blue" 1)
                = mkBall 2 101 100 8 0 10 "blue" 1).
  { apply near_centre_clear; [reflexivity|].
    replace (Vec.length (Vec.sub (position (mkBall 2 101 100 8 0 10 "blue" 1))
                                 (center 200 200))) with 1; [lra|].
    symmetry. apply length_of_square; [lra|].
    unfold position, center, centerX, centerY. vec. lra. }
  rewrite hoveringBall_moved.
  split; [reflexivity|]. split.
  { replace (Vec.length (distVec centreBall slidingBall)) with 0.
    - unfold minDist. simpl. lra.
    - symmetry. apply length_of_square; [lra|].
      unfold distVec, position. vec. ring. }
  split; [exact Hc|]. split.
  - unfold subStep. cbn [List.length seq fold_left].
    assert (S1 : stepBall 200 200 (heptagonVertices 200 200 0)
                   [hoveringBall; slidingBall] 0
                 = [centreBall; slidingBall]).
    { unfold stepBall. cbn [lookup list_lookup]. cbv zeta.
      rewrite hoveringBall_moved, Hw1.
      cbn -[collide]. rewrite Hc. reflexivity. }
    rewrite S1.
    unfold stepBall. cbn [lookup list_lookup]. cbv zeta.
    rewrite slidingBall_moved, Hw2.
    cbn -[collide]. rewrite slid_collide. reflexivity.
  - apply length_of_square; [unfold minDist; simpl; lra|].
    unfold distVec, position, minDist. vec. lra.
Qed.
